(** * eensy.py: an in-memory inverted index with TF-IDF ranking

    Shallow embedding of [src/eensy-index/eensy.py].  Text is modelled as
    ASCII [string]s; Python's [float] scores are modelled as exact reals
    [R] (rounding is not modelled).  Python dicts (including
    [collections.defaultdict]) preserve insertion order, so they are
    modelled as association lists in insertion order.  Python exceptions
    are modelled explicitly, together with the state that was already
    mutated when they were raised. *)

From Stdlib Require Import String Ascii List Bool Arith Lia ZArith.
From Stdlib Require Import Reals Lra Sorted Permutation.
Import ListNotations.
Open Scope string_scope.
Open Scope list_scope.

(* ------------------------------------------------------------------ *)
(** ** Characters: [str.lower], [str.isalpha], [str.isdigit], [str.split] *)

Definition code (c : ascii) : nat := nat_of_ascii c.

Definition is_upper (c : ascii) : bool := Nat.leb 65 (code c) && Nat.leb (code c) 90.
Definition is_lower (c : ascii) : bool := Nat.leb 97 (code c) && Nat.leb (code c) 122.
Definition isalpha (c : ascii) : bool := is_upper c || is_lower c.
Definition isdigit (c : ascii) : bool := Nat.leb 48 (code c) && Nat.leb (code c) 57.

(** [c.lower()] on ASCII: A-Z are mapped to a-z, everything else is kept. *)
Definition lower_char (c : ascii) : ascii :=
  if is_upper c then ascii_of_nat (code c + 32) else c.

Fixpoint lower (s : string) : string :=
  match s with
  | EmptyString => EmptyString
  | String c s' => String (lower_char c) (lower s')
  end.

(** The ASCII characters that [str.split()] treats as whitespace:
    space, \t \n \v \f \r and the separators \x1c-\x1f. *)
Definition is_space (c : ascii) : bool :=
  let n := code c in
  Nat.eqb n 32 || (Nat.leb 9 n && Nat.leb n 13) || (Nat.leb 28 n && Nat.leb n 31).

(** [str.split()] with no argument: split on runs of whitespace, no empty
    words.  [cur] is the word being read, reversed. *)
Fixpoint split_aux (s : string) (cur : list ascii) : list string :=
  match s with
  | EmptyString =>
      match cur with
      | [] => []
      | _ => [string_of_list_ascii (rev cur)]
      end
  | String c s' =>
      if is_space c then
        match cur with
        | [] => split_aux s' []
        | _ => string_of_list_ascii (rev cur) :: split_aux s' []
        end
      else split_aux s' (c :: cur)
  end.

Definition split (s : string) : list string := split_aux s [].

(** [any(c.isalpha() or c.isdigit() for c in word)] *)
Fixpoint any_alnum (s : string) : bool :=
  match s with
  | EmptyString => false
  | String c s' => isalpha c || isdigit c || any_alnum s'
  end.

(** [STOP_WORDS] *)
Definition STOP_WORDS : list string :=
  ["the"; "of"; "in"; "and"; "to"; "a"; "an"; "was"; "for"; "on"; "with";
   "is"; "by"; "as"; "at"; "from"; "that"; "it"; "were"; "are"; "has";
   "had"; "also"; "its"; "this"; "may"; "be"; "or"].

Definition mem_stop (w : string) : bool :=
  existsb (fun s => String.eqb s w) STOP_WORDS.

(** [tokens(text)]: the generator, as the list of the words it yields. *)
Definition tokens (text : string) : list string :=
  filter (fun word => any_alnum word && negb (mem_stop word))
         (split (lower text)).

(* ------------------------------------------------------------------ *)
(** ** [Document] *)

(** [filename.replace(".txt", "")]: every occurrence of [.txt], scanned
    left to right without overlap, is removed. *)
Definition is_dot_txt (c0 c1 c2 c3 : ascii) : bool :=
  Ascii.eqb c0 "." && Ascii.eqb c1 "t" && Ascii.eqb c2 "x" && Ascii.eqb c3 "t".

Fixpoint replace_txt (s : string) : string :=
  match s with
  | EmptyString => EmptyString
  | String c s' =>
      match s' with
      | String c1 (String c2 (String c3 rest)) =>
          if is_dot_txt c c1 c2 c3 then replace_txt rest
          else String c (replace_txt s')
      | _ => String c (replace_txt s')
      end
  end.

Record Document := mkDocument {
  doc_id : nat;
  doc_name : string;
  doc_filename : string;
  max_tf : nat
}.

(** [Document.__init__(id, filename)] *)
Definition new_document (id : nat) (filename : string) : Document :=
  mkDocument id (replace_txt filename) filename 0.

(* ------------------------------------------------------------------ *)
(** ** [Index] state *)

(** [Loc(document, offsets)]: the Python [Loc] holds a reference to its
    [Document]; the document is identified here by its id, and
    [loc.document.max_tf] is read from [documents] (the object is the one
    stored there, and [max_tf] is set once, before any search). *)
Record Loc := mkLoc { loc_doc : nat; offsets : list nat }.

Record Index := mkIndex {
  documents : list Document;
  terms : list (string * list Loc)   (* defaultdict(list), insertion order *)
}.

Definition empty_index : Index := mkIndex [] [].

Inductive PyExc := ValueError | AttributeError.

(** Result of a call that can raise: the state it leaves either way. *)
Inductive Outcome (A : Type) :=
| Returned (st : A)
| Raised (e : PyExc) (st : A).
Arguments Returned {A} st.
Arguments Raised {A} e st.

(** [locs_in_file[word].offsets.append(i)] on the ordered defaultdict
    [locs_in_file] (keys in first-seen order). *)
Fixpoint append_offset (m : list (string * list nat)) (w : string) (i : nat)
  : list (string * list nat) :=
  match m with
  | [] => [(w, [i])]
  | (k, offs) :: m' =>
      if String.eqb k w then (k, offs ++ [i]) :: m'
      else (k, offs) :: append_offset m' w i
  end.

(** [for i, word in enumerate(ws): locs_in_file[word].offsets.append(i)] *)
Fixpoint enumerate_locs (ws : list string) (i : nat) (m : list (string * list nat))
  : list (string * list nat) :=
  match ws with
  | [] => m
  | w :: ws' => enumerate_locs ws' (S i) (append_offset m w i)
  end.

Definition locs_in_file (text : string) : list (string * list nat) :=
  enumerate_locs (tokens text) 0 [].

(** [max(...)] over a non-empty sequence; [None] for the empty one
    (Python raises [ValueError]). *)
Definition py_max (l : list nat) : option nat :=
  match l with
  | [] => None
  | x :: l' => Some (fold_left Nat.max l' x)
  end.

(** [self.terms[word].append(locs)] on the defaultdict [terms]. *)
Fixpoint terms_append (t : list (string * list Loc)) (w : string) (l : Loc)
  : list (string * list Loc) :=
  match t with
  | [] => [(w, [l])]
  | (k, ls) :: t' =>
      if String.eqb k w then (k, ls ++ [l]) :: t'
      else (k, ls) :: terms_append t' w l
  end.

(** [Index.add_doc(filename, text)].  The document is appended before the
    tokens are read, so the [ValueError] of [max] on an empty document
    leaves it in [documents] with [max_tf = 0]. *)
Definition add_doc (idx : Index) (filename text : string) : Outcome Index :=
  let id := length (documents idx) in
  let doc := new_document id filename in
  let docs1 := documents idx ++ [doc] in
  let lf := locs_in_file text in
  match py_max (map (fun p => length (snd p)) lf) with
  | None => Raised ValueError (mkIndex docs1 (terms idx))
  | Some m =>
      let doc' := mkDocument id (doc_name doc) filename m in
      Returned (mkIndex (documents idx ++ [doc'])
                  (fold_left (fun t p => terms_append t (fst p) (mkLoc id (snd p)))
                             lf (terms idx)))
  end.

(** [Index.__init__]: [add_doc] on each file in turn. *)
Fixpoint add_docs (idx : Index) (files : list (string * string)) : Outcome Index :=
  match files with
  | [] => Returned idx
  | (f, txt) :: fs =>
      match add_doc idx f txt with
      | Returned idx' => add_docs idx' fs
      | Raised e idx' => Raised e idx'
      end
  end.

(* ------------------------------------------------------------------ *)
(** ** Reading the index: a state monad over [Index] *)

Definition St (A : Type) : Type := Index -> A * Index.

Definition ret {A} (a : A) : St A := fun s => (a, s).
Definition bind {A B} (m : St A) (k : A -> St B) : St B :=
  fun s => let (a, s') := m s in k a s'.

Notation "x <- m ;; k" := (bind m (fun x => k))
  (at level 61, m at next level, right associativity).

Fixpoint foldM {A B} (f : A -> B -> St A) (l : list B) (a : A) : St A :=
  match l with
  | [] => ret a
  | b :: l' => a' <- f a b ;; foldM f l' a'
  end.

Definition get_documents : St (list Document) := fun s => (documents s, s).

(** [dict.get(key, default)]: does not insert the key (unlike
    [defaultdict.__getitem__]). *)
Fixpoint dict_get {V} (d : list (string * V)) (key : string) (dflt : V) : V :=
  match d with
  | [] => dflt
  | (k, v) :: d' => if String.eqb k key then v else dict_get d' key dflt
  end.

(** [Index.lookup(term)]: [self.terms.get(term, [])] *)
Definition lookup (term : string) : St (list Loc) :=
  fun s => (dict_get (terms s) term [], s).

(** [df = len(locs) / len(self.documents); math.log(1/df)] *)
Definition idf_value (df_count n_docs : nat) : R :=
  (let df := INR df_count / INR n_docs in ln (1 / df))%R.

(** [Index.idf(term)]: [None] when the term has no postings. *)
Definition idf (term : string) : St (option R) :=
  locs <- lookup term ;;
  docs <- get_documents ;;
  ret (match locs with
       | [] => None
       | _ => Some (idf_value (length locs) (length docs))
       end).

(** [loc.document.max_tf] *)
Definition doc_max_tf (docs : list Document) (d : nat) : nat :=
  match nth_error docs d with
  | Some doc => max_tf doc
  | None => 0
  end.

(** [100 * len(loc.offsets) / loc.document.max_tf] *)
Definition tf_value (occurrences mx : nat) : R := (100 * INR occurrences / INR mx)%R.

Definition tf (docs : list Document) (loc : Loc) : R :=
  tf_value (length (offsets loc)) (doc_max_tf docs (loc_doc loc)).

(** [file_scores[doc] += v] on [defaultdict(float)] keyed by document,
    in insertion order. *)
Fixpoint add_score (fs : list (nat * R)) (d : nat) (v : R) : list (nat * R) :=
  match fs with
  | [] => [(d, 0 + v)%R]
  | (k, x) :: fs' =>
      if Nat.eqb k d then (k, x + v)%R :: fs' else (k, x) :: add_score fs' d v
  end.

(** One iteration of [for word in tokens(query)].  [idf] is [Some _] here
    since [locs] is non-empty; the [None] branch is unreachable. *)
Definition score_word (fs : list (nat * R)) (word : string) : St (list (nat * R)) :=
  locs <- lookup word ;;
  match locs with
  | [] => ret fs
  | _ :: _ =>
      o <- idf word ;;
      docs <- get_documents ;;
      let idf_v := match o with Some v => v | None => 0%R end in
      ret (fold_left (fun fs loc => add_score fs (loc_doc loc) (tf docs loc * idf_v)%R)
                     locs fs)
  end.

Record Result := mkResult { res_doc : nat; score : R }.

(** [results.sort(key=lambda pair: pair.score, reverse=True)]: Python's
    sort is stable also with [reverse=True]; as an insertion sort, a new
    element goes after every element whose score is not smaller. *)
Fixpoint insert_desc (x : Result) (l : list Result) : list Result :=
  match l with
  | [] => [x]
  | y :: l' =>
      if Rlt_dec (score y) (score x) then x :: l else y :: insert_desc x l'
  end.

Definition sort_desc (l : list Result) : list Result :=
  fold_left (fun acc x => insert_desc x acc) l [].

(** [results[:limit]]: a negative stop counts from the end, clipped at 0. *)
Definition py_slice_to {A} (l : list A) (limit : Z) : list A :=
  firstn (Z.to_nat (if (limit <? 0)%Z then (Z.of_nat (length l) + limit)%Z else limit)) l.

(** The [file_scores] accumulation of [Index.search]. *)
Definition file_scores (query : string) : St (list (nat * R)) :=
  foldM score_word (tokens query) [].

Definition to_results (fs : list (nat * R)) : list Result :=
  map (fun p => mkResult (fst p) (snd p)) fs.

(** [Index.search(query, limit)] *)
Definition search (query : string) (limit : Z) : St (list Result) :=
  fs <- file_scores query ;;
  ret (py_slice_to (sort_desc (to_results fs)) limit).

(* ------------------------------------------------------------------ *)
(** ** [Index.save] *)

(** ["{}".format(n)] for a natural number. *)
Fixpoint digits_aux (fuel n : nat) (acc : string) : string :=
  match fuel with
  | 0 => acc
  | S f =>
      let acc' := String (ascii_of_nat (48 + n mod 10)) acc in
      if Nat.ltb n 10 then acc' else digits_aux f (n / 10) acc'
  end.

Definition str_of_nat (n : nat) : string := digits_aux (S n) n "".

Fixpoint concat_str (l : list string) : string :=
  match l with
  | [] => ""
  | s :: l' => String.append s (concat_str l')
  end.

(** ["{},{},{}".format(doc.name, doc.filename, doc.max_tf)] *)
Definition format_doc (d : Document) : string :=
  concat_str [doc_name d; ","; doc_filename d; ","; str_of_nat (max_tf d)].

(** ["{},{},{}".format(word, offset, nbytes)] *)
Definition format_dir (e : string * nat * nat) : string :=
  let '(w, off, n) := e in concat_str [w; ","; str_of_nat off; ","; str_of_nat n].

(** [word.encode('utf-8')] on ASCII text. *)
Definition utf8 (s : string) : list Byte.byte :=
  map byte_of_ascii (list_ascii_of_string s).

Definition newline : ascii := ascii_of_nat 10.

(** The [index.dat] loop.  [bits] is a [bytes] object, which has no
    [append] method: [bits.append(...)] raises [AttributeError] at the
    first posting, whatever stands for its argument (the source has the
    placeholder [???] there).  The state carried is the blob written so
    far and the [directory] list. *)
Fixpoint write_postings (ts : list (string * list Loc)) (bytes_written : nat)
    (blob : list Byte.byte) (directory : list (string * nat * nat))
  : Outcome (list Byte.byte * list (string * nat * nat)) :=
  match ts with
  | [] => Returned (blob, directory)
  | (word, locs) :: ts' =>
      let bits := utf8 word ++ [byte_of_ascii newline] in
      match locs with
      | _ :: _ => Raised AttributeError (blob, directory)
      | [] =>
          write_postings ts' (bytes_written + length bits) (blob ++ bits)
                         (directory ++ [(word, bytes_written, length bits)])
      end
  end.

(** The files in [index_dir] after [save]: [None] for a file not created. *)
Record Files := mkFiles {
  documents_txt : option string;
  index_dat : option (list Byte.byte);
  directory_txt : option string
}.

(** [Index.save(index_dir)] *)
Definition save (idx : Index) : Outcome Files :=
  let docs_txt := concat_str (map format_doc (documents idx)) in
  match write_postings (terms idx) 0 [] [] with
  | Raised e (blob, _) => Raised e (mkFiles (Some docs_txt) (Some blob) None)
  | Returned (blob, directory) =>
      Returned (mkFiles (Some docs_txt) (Some blob)
                        (Some (concat_str (map format_dir directory))))
  end.

Definition files_of (o : Outcome Files) : Files :=
  match o with Returned f => f | Raised _ f => f end.

(* ------------------------------------------------------------------ *)
(** ** The corpus of the spec's scenario *)

Definition scenario_files : list (string * string) :=
  [("doc0.txt", "the cat sat on the mat"); ("doc1.txt", "the dog sat on a log")].

Definition index_of (o : Outcome Index) : Index :=
  match o with Returned i => i | Raised _ i => i end.

Definition scenario : Index := index_of (add_docs empty_index scenario_files).

Definition one_doc : Index :=
  index_of (add_doc empty_index "doc0.txt" "the cat sat on the cat").

Definition single_cat : Index :=
  index_of (add_docs empty_index [("cat.txt", "cat")]).

Definition three_docs : Index :=
  index_of (add_docs empty_index
    [("doc0.txt", "cat"); ("doc1.txt", "dog"); ("doc2.txt", "fish")]).

(* ------------------------------------------------------------------ *)
(** ** Observations used in the statements *)

(** Equality of reals as a boolean test. *)
Definition Req_bool (x y : R) : bool := if Req_EM_T x y then true else false.

(** Whether [.txt] occurs in [s] (at any position). *)
Fixpoint contains_txt (s : string) : bool :=
  match s with
  | EmptyString => false
  | String c s' =>
      match s' with
      | String c1 (String c2 (String c3 _)) => is_dot_txt c c1 c2 c3
      | _ => false
      end || contains_txt s'
  end.

(** The score held for document [d] in [file_scores] (0 when absent). *)
Fixpoint score_of (fs : list (nat * R)) (d : nat) : R :=
  match fs with
  | [] => 0%R
  | (k, x) :: fs' => if Nat.eqb k d then x else score_of fs' d
  end.

(** What one query word [w] adds to document [d]: [tf * idf] for each of
    [w]'s postings that belongs to [d]. *)
Definition contrib (idx : Index) (w : string) (d : nat) : R :=
  let locs := dict_get (terms idx) w [] in
  let idf_v := idf_value (length locs) (length (documents idx)) in
  fold_right (fun loc acc =>
      ((if Nat.eqb (loc_doc loc) d then tf (documents idx) loc * idf_v else 0) + acc)%R)
    0%R locs.

(** The documents in the order they are first reached while scanning the
    query's tokens in order and, for each token, its postings in order;
    each document listed once, at its first visit. *)
Definition add_key (acc : list nat) (d : nat) : list nat :=
  if existsb (Nat.eqb d) acc then acc else acc ++ [d].

Definition first_reached (q : string) (idx : Index) : list nat :=
  fold_left add_key
    (concat (map (fun w => map loc_doc (dict_get (terms idx) w [])) (tokens q))) [].

Fixpoint sum_list (l : list R) : R :=
  match l with
  | [] => 0%R
  | x :: l' => (x + sum_list l')%R
  end.

(** [a] ranks at least as high as [b]. *)
Definition score_ge (a b : Result) : Prop := (score b <= score a)%R.

(** The results with score [v]. *)
Definition keep (v : R) (r : Result) : bool := Req_bool (score r) v.

(** A computation that leaves the index as it found it. *)
Definition reads_only {A} (m : St A) : Prop := forall s, snd (m s) = s.


(** The positions (counted from [i]) at which [w] occurs in [ws]. *)
Fixpoint positions (ws : list string) (w : string) (i : nat) : list nat :=
  match ws with
  | [] => []
  | x :: ws' =>
      if String.eqb x w then i :: positions ws' w (S i) else positions ws' w (S i)
  end.

(** The postings of one term in an index of [n] documents: document ids
    below [n], strictly increasing (so at most one posting per document),
    each with a non-empty list of offsets. *)
Definition postings_ok (n : nat) (locs : list Loc) : Prop :=
  StronglySorted (fun a b => loc_doc a < loc_doc b)%nat locs /\
  Forall (fun l => (loc_doc l < n)%nat /\ offsets l <> []) locs.

(** The invariant kept by ingestion: the document at position [k] has id
    [k]; every term stored has at least one posting; the postings that
    [lookup] returns are well formed. *)
Definition index_ok (idx : Index) : Prop :=
  (forall k doc, nth_error (documents idx) k = Some doc -> doc_id doc = k) /\
  Forall (fun p => snd p <> []) (terms idx) /\
  (forall w, postings_ok (length (documents idx)) (dict_get (terms idx) w [])).

(** [" ".join(ws)] *)
Fixpoint join_space (ws : list string) : string :=
  match ws with
  | [] => ""
  | [w] => w
  | w :: ws' => String.append w (String " " (join_space ws'))
  end.

(* ================================================================== *)
(** * Proofs *)

(** ** Tokenizer *)

Lemma lower_char_not_upper : forall c, is_upper (lower_char c) = false.
Proof.
  intros c; destruct c as [[] [] [] [] [] [] [] []]; reflexivity.
Qed.

Lemma lower_char_id : forall c, is_upper c = false -> lower_char c = c.
Proof. intros c H; unfold lower_char; now rewrite H. Qed.

Lemma In_lower : forall s c,
  In c (list_ascii_of_string (lower s)) -> is_upper c = false.
Proof.
  induction s as [|c0 s IH]; simpl; intros c H; [contradiction|].
  destruct H as [<-|H]; [apply lower_char_not_upper | now apply IH].
Qed.

Lemma list_ascii_of_string_of_list : forall l,
  list_ascii_of_string (string_of_list_ascii l) = l.
Proof. induction l; simpl; congruence. Qed.

Lemma lower_id : forall w,
  (forall c, In c (list_ascii_of_string w) -> is_upper c = false) -> lower w = w.
Proof.
  induction w as [|c w IH]; simpl; intros H; [reflexivity|].
  rewrite lower_char_id by auto. now rewrite IH by auto.
Qed.

Lemma string_of_list_ascii_nonempty : forall l,
  l <> [] -> string_of_list_ascii l <> "".
Proof. intros [|c l] H; [contradiction|]; simpl; discriminate. Qed.

Lemma rev_cons_nonempty : forall (c : ascii) l, rev l ++ [c] <> [].
Proof. intros c l H. apply app_eq_nil in H as [_ H]; discriminate. Qed.

(** Every word of [split_aux s cur] is non-empty and made of characters of
    [s] or [cur]. *)
Lemma split_aux_words : forall s cur w,
  In w (split_aux s cur) ->
  w <> "" /\
  (forall c, In c (list_ascii_of_string w) ->
             In c (list_ascii_of_string s) \/ In c cur).
Proof.
  induction s as [|c s IH]; intros cur w Hin; simpl in Hin.
  - destruct cur as [|c0 cur']; [contradiction|].
    destruct Hin as [<-|[]]. split.
    + apply string_of_list_ascii_nonempty, rev_cons_nonempty.
    + intros c Hc; right. rewrite list_ascii_of_string_of_list in Hc.
      now apply in_rev in Hc.
  - destruct (is_space c).
    + destruct cur as [|c0 cur'].
      * destruct (IH [] w Hin) as [Hne Hc]. split; [exact Hne|].
        intros c1 H1; destruct (Hc c1 H1) as [H2|[]]; left; simpl; now right.
      * destruct Hin as [<-|Hin].
        -- split.
           ++ apply string_of_list_ascii_nonempty, rev_cons_nonempty.
           ++ intros c1 Hc; right. rewrite list_ascii_of_string_of_list in Hc.
              now apply in_rev in Hc.
        -- destruct (IH [] w Hin) as [Hne Hc]. split; [exact Hne|].
           intros c1 H1; destruct (Hc c1 H1) as [H2|[]]; left; simpl; now right.
    + destruct (IH (c :: cur) w Hin) as [Hne Hc]. split; [exact Hne|].
      intros c1 H1; destruct (Hc c1 H1) as [H2|[H2|H2]]; simpl; auto.
Qed.

(** ** Document names *)

Lemma replace_txt_eq4 : forall c c1 c2 c3 rest,
  replace_txt (String c (String c1 (String c2 (String c3 rest)))) =
  if is_dot_txt c c1 c2 c3 then replace_txt rest
  else String c (replace_txt (String c1 (String c2 (String c3 rest)))).
Proof. reflexivity. Qed.

Lemma replace_txt_cons : forall c s,
  Ascii.eqb c "." = false -> replace_txt (String c s) = String c (replace_txt s).
Proof.
  intros c s Hc. destruct s as [|c1 [|c2 [|c3 rest]]]; try reflexivity.
  rewrite replace_txt_eq4. unfold is_dot_txt. now rewrite Hc.
Qed.

Lemma replace_txt_no_occurrence : forall s,
  contains_txt s = false -> replace_txt s = s.
Proof.
  induction s as [|c s IH]; intros H; [reflexivity|].
  simpl in H. apply orb_false_iff in H as [H1 H2].
  destruct s as [|c1 [|c2 [|c3 rest]]];
    try reflexivity.
  rewrite replace_txt_eq4. simpl in H1. rewrite H1. now rewrite IH.
Qed.

Lemma replace_txt_nodot_suffix : forall base,
  (forall c, In c (list_ascii_of_string base) -> Ascii.eqb c "." = false) ->
  replace_txt (String.append base ".txt") = base.
Proof.
  induction base as [|c base IH]; intros H; [reflexivity|].
  cbn [String.append]. rewrite replace_txt_cons by (apply H; simpl; auto).
  rewrite IH; [reflexivity|]. intros c1 Hc1; apply H; simpl; auto.
Qed.

(** ** Ingestion *)

Lemma append_offset_nonempty : forall m w i,
  Forall (fun p => snd p <> []) m -> Forall (fun p => snd p <> []) (append_offset m w i).
Proof.
  induction m as [|[k offs] m IH]; intros w i H; simpl.
  - constructor; [simpl; discriminate | constructor].
  - inversion H as [|? ? Hk Hm]; subst. destruct (String.eqb k w).
    + constructor; [simpl; intros E; apply app_eq_nil in E as [_ E]; discriminate | exact Hm].
    + constructor; [exact Hk | now apply IH].
Qed.

Lemma enumerate_locs_nonempty : forall ws i m,
  Forall (fun p => snd p <> []) m -> Forall (fun p => snd p <> []) (enumerate_locs ws i m).
Proof.
  induction ws as [|w ws IH]; intros i m H; simpl; [exact H|].
  apply IH, append_offset_nonempty, H.
Qed.

Lemma fold_max_ge : forall l x,
  (x <= fold_left Nat.max l x)%nat /\ Forall (fun y => y <= fold_left Nat.max l x)%nat l.
Proof.
  induction l as [|y l IH]; intros x; simpl; [split; [lia | constructor]|].
  destruct (IH (Nat.max x y)) as [H1 H2]. split; [lia|]. constructor; [lia | exact H2].
Qed.

Lemma py_max_ge : forall l m, py_max l = Some m -> Forall (fun y => y <= m)%nat l.
Proof.
  intros [|x l] m H; [discriminate|]. simpl in H; injection H as <-.
  destruct (fold_max_ge l x) as [H1 H2]. constructor; assumption.
Qed.

Lemma tf_value_range : forall c m, (1 <= c)%nat -> (c <= m)%nat ->
  (0 < tf_value c m <= 100)%R /\ (tf_value c m = 100 <-> c = m)%R.
Proof.
  intros c m Hc Hcm.
  apply le_INR in Hc, Hcm. simpl in Hc.
  assert (E : (tf_value c m * INR m = 100 * INR c)%R)
    by (unfold tf_value; field; lra).
  split; [split; nra|]. split.
  - intros H. rewrite H in E. apply INR_eq. lra.
  - intros ->. unfold tf_value. field. lra.
Qed.

Lemma dict_get_terms_append : forall t w l w',
  dict_get (terms_append t w l) w' [] =
  if String.eqb w w' then dict_get t w' [] ++ [l] else dict_get t w' [].
Proof.
  induction t as [|[k ls] t IH]; intros w l w'; simpl.
  - destruct (String.eqb w w'); reflexivity.
  - destruct (String.eqb k w) eqn:Ekw.
    + apply String.eqb_eq in Ekw; subst k. simpl.
      destruct (String.eqb w w'); reflexivity.
    + simpl. rewrite IH. destruct (String.eqb k w') eqn:Ekw'; [|reflexivity].
      apply String.eqb_eq in Ekw'; subst k.
      destruct (String.eqb w w') eqn:Eww'; [|reflexivity].
      apply String.eqb_eq in Eww'; subst w. now rewrite String.eqb_refl in Ekw.
Qed.

Lemma fold_terms_append_keeps : forall id lf t w x,
  In x (dict_get t w []) ->
  In x (dict_get (fold_left (fun t p => terms_append t (fst p) (mkLoc id (snd p))) lf t) w []).
Proof.
  induction lf as [|p lf IH]; intros t w x H; simpl; [exact H|].
  apply IH. rewrite dict_get_terms_append.
  destruct (String.eqb (fst p) w); [apply in_or_app; now left | exact H].
Qed.

Lemma fold_terms_append_adds : forall id lf t w offs,
  In (w, offs) lf ->
  In (mkLoc id offs)
     (dict_get (fold_left (fun t p => terms_append t (fst p) (mkLoc id (snd p))) lf t) w []).
Proof.
  induction lf as [|p lf IH]; intros t w offs H; simpl; [contradiction|].
  destruct H as [->|H]; [|now apply IH].
  apply fold_terms_append_keeps. rewrite dict_get_terms_append. simpl.
  rewrite String.eqb_refl. apply in_or_app; right; now left.
Qed.

(** ** Searching reads the index only *)

Lemma ret_reads_only {A} (a : A) : reads_only (ret a).
Proof. intros s; reflexivity. Qed.

Lemma bind_reads_only {A B} (m : St A) (k : A -> St B) :
  reads_only m -> (forall a, reads_only (k a)) -> reads_only (bind m k).
Proof.
  intros Hm Hk s. unfold bind. specialize (Hm s).
  destruct (m s) as [a s']; simpl in Hm; subst s'. apply Hk.
Qed.

Lemma bind_run {A B} (m : St A) (k : A -> St B) s :
  reads_only m -> bind m k s = k (fst (m s)) s.
Proof.
  intros Hm. unfold bind. specialize (Hm s).
  destruct (m s) as [a s']; simpl in *; now subst s'.
Qed.

Lemma lookup_reads_only w : reads_only (lookup w).
Proof. intros s; reflexivity. Qed.

Lemma get_documents_reads_only : reads_only get_documents.
Proof. intros s; reflexivity. Qed.

Lemma idf_reads_only w : reads_only (idf w).
Proof. intros s; reflexivity. Qed.

Lemma score_word_reads_only fs w : reads_only (score_word fs w).
Proof.
  unfold score_word. apply bind_reads_only; [apply lookup_reads_only|].
  intros [|l ls]; [apply ret_reads_only|].
  apply bind_reads_only; [apply idf_reads_only|]; intros o.
  apply bind_reads_only; [apply get_documents_reads_only|]; intros docs.
  apply ret_reads_only.
Qed.

Lemma foldM_reads_only {A B} (f : A -> B -> St A) :
  (forall a b, reads_only (f a b)) -> forall l a, reads_only (foldM f l a).
Proof.
  intros Hf l. induction l as [|b l IH]; intros a; simpl;
    [apply ret_reads_only | apply bind_reads_only; auto].
Qed.

Lemma file_scores_reads_only q : reads_only (file_scores q).
Proof. apply foldM_reads_only, score_word_reads_only. Qed.

Lemma search_reads_only q limit : reads_only (search q limit).
Proof.
  apply bind_reads_only; [apply file_scores_reads_only|]. intros; apply ret_reads_only.
Qed.

Lemma search_run q limit s :
  fst (search q limit s) = py_slice_to (sort_desc (to_results (fst (file_scores q s)))) limit.
Proof. unfold search. rewrite bind_run by apply file_scores_reads_only. reflexivity. Qed.

(** ** Score accumulation *)

Lemma add_score_spec : forall fs d v d',
  score_of (add_score fs d v) d' = (score_of fs d' + if Nat.eqb d d' then v else 0)%R.
Proof.
  induction fs as [|[k x] fs IH]; intros d v d'; simpl.
  - destruct (Nat.eqb d d'); ring.
  - destruct (Nat.eqb k d) eqn:Ekd.
    + apply Nat.eqb_eq in Ekd; subst k. simpl.
      destruct (Nat.eqb d d'); ring.
    + simpl. rewrite IH. destruct (Nat.eqb k d') eqn:Ekd'; [|reflexivity].
      apply Nat.eqb_eq in Ekd'; subst k.
      destruct (Nat.eqb d d') eqn:Edd'; [|ring].
      apply Nat.eqb_eq in Edd'; subst d. now rewrite Nat.eqb_refl in Ekd.
Qed.

Lemma fold_add_score_spec : forall (g : Loc -> R) locs fs d,
  score_of (fold_left (fun fs loc => add_score fs (loc_doc loc) (g loc)) locs fs) d =
  (score_of fs d +
   fold_right (fun loc acc => ((if Nat.eqb (loc_doc loc) d then g loc else 0) + acc)%R)
              0%R locs)%R.
Proof.
  intros g; induction locs as [|loc locs IH]; intros fs d; simpl; [ring|].
  rewrite IH, add_score_spec. ring.
Qed.

Lemma score_word_run : forall fs w s,
  fst (score_word fs w s) =
  match dict_get (terms s) w [] with
  | [] => fs
  | locs =>
      fold_left (fun fs loc => add_score fs (loc_doc loc)
                   (tf (documents s) loc *
                    idf_value (length locs) (length (documents s)))%R) locs fs
  end.
Proof.
  intros fs w s. unfold score_word, idf, bind, lookup, get_documents, ret; cbn beta iota.
  destruct (dict_get (terms s) w []) as [|l l0] eqn:E; [reflexivity|].
  cbn [fst]. rewrite E. reflexivity.
Qed.

Lemma score_word_spec : forall fs w s d,
  score_of (fst (score_word fs w s)) d = (score_of fs d + contrib s w d)%R.
Proof.
  intros fs w s d. rewrite score_word_run. unfold contrib.
  destruct (dict_get (terms s) w []) as [|l ls]; [simpl; ring|].
  rewrite fold_add_score_spec. reflexivity.
Qed.

Lemma foldM_score_word_spec : forall ws fs s d,
  score_of (fst (foldM score_word ws fs s)) d =
  (score_of fs d + sum_list (map (fun w => contrib s w d) ws))%R.
Proof.
  induction ws as [|w ws IH]; intros fs s d; simpl; [ring|].
  rewrite bind_run by apply score_word_reads_only.
  rewrite IH, score_word_spec. ring.
Qed.

Lemma sum_list_count : forall (f : string -> R) t ws,
  sum_list (map f ws) =
  (INR (count_occ string_dec ws t) * f t +
   sum_list (map f (filter (fun w => negb (String.eqb w t)) ws)))%R.
Proof.
  intros f t; induction ws as [|w ws IH];
    cbn [map sum_list count_occ filter]; [simpl; ring|].
  destruct (string_dec w t) as [->|Hne].
  - rewrite String.eqb_refl. cbn [negb]. rewrite S_INR, IH. ring.
  - apply String.eqb_neq in Hne. rewrite Hne. cbn [negb map sum_list].
    rewrite IH. ring.
Qed.

(** ** The stable descending sort *)

Lemma insert_desc_perm : forall x l, Permutation (x :: l) (insert_desc x l).
Proof.
  intros x; induction l as [|y l IH]; simpl; [reflexivity|].
  destruct (Rlt_dec (score y) (score x)); [reflexivity|].
  eapply perm_trans; [apply perm_swap|]. constructor; exact IH.
Qed.

Lemma sort_desc_aux_perm : forall l acc,
  Permutation (acc ++ l) (fold_left (fun acc x => insert_desc x acc) l acc).
Proof.
  induction l as [|x l IH]; intros acc; simpl; [now rewrite app_nil_r|].
  eapply perm_trans; [|apply IH].
  eapply perm_trans; [apply Permutation_sym, Permutation_middle|].
  exact (Permutation_app_tail l (insert_desc_perm x acc)).
Qed.

Lemma sort_desc_perm : forall l, Permutation l (sort_desc l).
Proof. intros l; apply (sort_desc_aux_perm l []). Qed.

Lemma insert_desc_hd : forall x y l,
  (score x <= score y)%R -> HdRel score_ge y l -> HdRel score_ge y (insert_desc x l).
Proof.
  intros x y [|z l] Hxy Hd; simpl; [now constructor|].
  destruct (Rlt_dec (score z) (score x)); constructor; [exact Hxy|].
  now inversion Hd.
Qed.

Lemma insert_desc_sorted : forall x l, Sorted score_ge l -> Sorted score_ge (insert_desc x l).
Proof.
  intros x; induction l as [|y l IH]; intros H; simpl; [repeat constructor|].
  destruct (Rlt_dec (score y) (score x)) as [Hlt|Hnlt].
  - constructor; [exact H | constructor; unfold score_ge; lra].
  - apply Sorted_inv in H as [Hl Hd]. constructor; [now apply IH|].
    apply insert_desc_hd; [lra | exact Hd].
Qed.

Lemma sort_desc_aux_sorted : forall l acc,
  Sorted score_ge acc -> Sorted score_ge (fold_left (fun acc x => insert_desc x acc) l acc).
Proof.
  induction l as [|x l IH]; intros acc H; simpl; [exact H|].
  apply IH, insert_desc_sorted, H.
Qed.

Lemma sort_desc_sorted : forall l, Sorted score_ge (sort_desc l).
Proof. intros l; apply sort_desc_aux_sorted; constructor. Qed.

Lemma firstn_sorted : forall n l, Sorted score_ge l -> Sorted score_ge (firstn n l).
Proof.
  induction n as [|n IH]; intros [|a l] H; simpl; [constructor..|].
  apply Sorted_inv in H as [Hl Hd]. constructor; [now apply IH|].
  destruct n, l as [|b l]; simpl; try constructor. now inversion Hd.
Qed.

Lemma Req_bool_spec : forall x y, Req_bool x y = true <-> x = y.
Proof. intros x y; unfold Req_bool; destruct (Req_EM_T x y); split; congruence. Qed.

Lemma score_ge_trans : Relations_1.Transitive score_ge.
Proof. intros a b c; unfold score_ge; lra. Qed.

Lemma filter_keep_below : forall v l,
  Forall (fun z => (score z < v)%R) l -> filter (keep v) l = [].
Proof.
  intros v l H; induction H as [|z l Hz H IH]; simpl; [reflexivity|].
  destruct (keep v z) eqn:E; [|exact IH].
  apply Req_bool_spec in E; lra.
Qed.

Lemma insert_desc_stable : forall v x l, Sorted score_ge l ->
  filter (keep v) (insert_desc x l) =
  if keep v x then filter (keep v) l ++ [x] else filter (keep v) l.
Proof.
  intros v x; induction l as [|y l IH]; intros H; simpl.
  - destruct (keep v x); reflexivity.
  - destruct (Rlt_dec (score y) (score x)) as [Hlt|Hnlt].
    + simpl. destruct (keep v x) eqn:Ex; [|reflexivity].
      apply Req_bool_spec in Ex.
      apply Sorted_StronglySorted in H; [|exact score_ge_trans].
      apply StronglySorted_inv in H as [_ Hall].
      assert (Hnil : filter (keep v) (y :: l) = []).
      { apply filter_keep_below. constructor; [lra|].
        eapply Forall_impl; [|exact Hall]. unfold score_ge; simpl; intros z Hz; lra. }
      cbn [filter] in Hnil. rewrite Hnil. reflexivity.
    + apply Sorted_inv in H as [Hl _]. simpl. rewrite (IH Hl).
      destruct (keep v y), (keep v x); reflexivity.
Qed.

Lemma sort_desc_aux_stable : forall v l acc, Sorted score_ge acc ->
  filter (keep v) (fold_left (fun acc x => insert_desc x acc) l acc) =
  filter (keep v) acc ++ filter (keep v) l.
Proof.
  intros v; induction l as [|x l IH]; intros acc H; simpl; [now rewrite app_nil_r|].
  rewrite IH by (now apply insert_desc_sorted).
  rewrite insert_desc_stable by exact H.
  destruct (keep v x); [now rewrite <- app_assoc | reflexivity].
Qed.

Lemma sort_desc_stable : forall v l, filter (keep v) (sort_desc l) = filter (keep v) l.
Proof. intros v l. apply (sort_desc_aux_stable v l []). constructor. Qed.

Lemma sort_desc_length : forall l, length (sort_desc l) = length l.
Proof. intros l. symmetry. apply Permutation_length, sort_desc_perm. Qed.

(** ** Which documents get a score *)

Lemma add_score_keys : forall fs d v d',
  In d' (map fst (add_score fs d v)) <-> In d' (map fst fs) \/ d' = d.
Proof.
  induction fs as [|[k x] fs IH]; intros d v d'; simpl.
  - intuition.
  - destruct (Nat.eqb k d) eqn:E; simpl.
    + apply Nat.eqb_eq in E; subst k. intuition.
    + rewrite IH. intuition.
Qed.

Lemma fold_add_score_keys : forall (g : Loc -> R) locs fs d',
  In d' (map fst (fold_left (fun fs loc => add_score fs (loc_doc loc) (g loc)) locs fs)) <->
  In d' (map fst fs) \/ exists loc, In loc locs /\ loc_doc loc = d'.
Proof.
  intros g; induction locs as [|loc locs IH]; intros fs d'; simpl.
  - split; [auto|]. intros [H|[loc [[] _]]]; exact H.
  - rewrite IH, add_score_keys. split.
    + intros [[H|H]|[l [Hl Hd]]]; [now left | right; exists loc; auto | right; eauto].
    + intros [H|[l [[<-|Hl] Hd]]]; [now left; left | left; right; auto | right; eauto].
Qed.

Lemma score_word_keys : forall fs w s d',
  In d' (map fst (fst (score_word fs w s))) <->
  In d' (map fst fs) \/ exists loc, In loc (dict_get (terms s) w []) /\ loc_doc loc = d'.
Proof.
  intros fs w s d'. rewrite score_word_run.
  destruct (dict_get (terms s) w []) as [|l ls].
  - split; [auto|]. intros [H|[loc [[] _]]]; exact H.
  - apply fold_add_score_keys.
Qed.

Lemma foldM_score_word_keys : forall ws fs s d',
  In d' (map fst (fst (foldM score_word ws fs s))) <->
  In d' (map fst fs) \/
  exists w, In w ws /\ exists loc, In loc (dict_get (terms s) w []) /\ loc_doc loc = d'.
Proof.
  induction ws as [|w ws IH]; intros fs s d'; simpl.
  - split; [auto|]. intros [H|[w [[] _]]]; exact H.
  - rewrite bind_run by apply score_word_reads_only.
    rewrite IH, score_word_keys. split.
    + intros [[H|H]|[w' [Hw' H]]]; [now left | right; exists w; auto | right; eauto].
    + intros [H|[w' [[<-|Hw'] H]]]; [now left; left | left; right; auto | right; eauto].
Qed.

(** ** The order of [file_scores] *)

Lemma existsb_eqb_In : forall (l : list nat) d, existsb (Nat.eqb d) l = true <-> In d l.
Proof.
  intros l d. rewrite existsb_exists. split.
  - intros [x [Hx E]]. apply Nat.eqb_eq in E. now subst.
  - intros H. exists d. split; [exact H | apply Nat.eqb_refl].
Qed.

Lemma add_score_order : forall fs d v,
  map fst (add_score fs d v) = add_key (map fst fs) d.
Proof.
  unfold add_key. induction fs as [|[k x] fs IH]; intros d v; simpl; [reflexivity|].
  destruct (Nat.eqb k d) eqn:E.
  - apply Nat.eqb_eq in E; subst k. now rewrite Nat.eqb_refl.
  - rewrite Nat.eqb_sym, E. simpl. rewrite IH. now destruct (existsb (Nat.eqb d) (map fst fs)).
Qed.

Lemma fold_add_score_order : forall (g : Loc -> R) locs fs,
  map fst (fold_left (fun fs loc => add_score fs (loc_doc loc) (g loc)) locs fs) =
  fold_left add_key (map loc_doc locs) (map fst fs).
Proof.
  intros g; induction locs as [|loc locs IH]; intros fs; simpl; [reflexivity|].
  now rewrite IH, add_score_order.
Qed.

Lemma foldM_score_word_order : forall ws fs s,
  map fst (fst (foldM score_word ws fs s)) =
  fold_left add_key
    (concat (map (fun w => map loc_doc (dict_get (terms s) w [])) ws)) (map fst fs).
Proof.
  induction ws as [|w ws IH]; intros fs s; simpl; [reflexivity|].
  rewrite bind_run by apply score_word_reads_only.
  rewrite IH, fold_left_app, score_word_run.
  destruct (dict_get (terms s) w []) as [|l ls]; [reflexivity|].
  now rewrite fold_add_score_order.
Qed.

Lemma file_scores_order : forall q s, map fst (fst (file_scores q s)) = first_reached q s.
Proof. intros q s. unfold file_scores, first_reached. apply foldM_score_word_order. Qed.

Lemma add_score_nodup : forall fs d v,
  NoDup (map fst fs) -> NoDup (map fst (add_score fs d v)).
Proof.
  induction fs as [|[k x] fs IH]; intros d v H; simpl.
  - constructor; [intros [] | constructor].
  - inversion H as [|? ? Hk Hnd]; subst.
    destruct (Nat.eqb k d) eqn:E; simpl; constructor; auto.
    rewrite add_score_keys. intros [Hin | ->]; [contradiction|].
    now rewrite Nat.eqb_refl in E.
Qed.

Lemma fold_add_score_nodup : forall (g : Loc -> R) locs fs,
  NoDup (map fst fs) ->
  NoDup (map fst (fold_left (fun fs loc => add_score fs (loc_doc loc) (g loc)) locs fs)).
Proof.
  intros g; induction locs as [|loc locs IH]; intros fs H; simpl; [exact H|].
  apply IH, add_score_nodup, H.
Qed.

Lemma foldM_score_word_nodup : forall ws fs s,
  NoDup (map fst fs) -> NoDup (map fst (fst (foldM score_word ws fs s))).
Proof.
  induction ws as [|w ws IH]; intros fs s H; simpl; [exact H|].
  rewrite bind_run by apply score_word_reads_only. apply IH.
  rewrite score_word_run. destruct (dict_get (terms s) w []); [exact H|].
  apply fold_add_score_nodup, H.
Qed.

Lemma file_scores_nodup : forall q s, NoDup (map fst (fst (file_scores q s))).
Proof. intros q s. apply foldM_score_word_nodup. constructor. Qed.

Lemma filter_keep_keys : forall v fs,
  NoDup (map fst fs) ->
  map res_doc (filter (keep v) (to_results fs)) =
  filter (fun d => Req_bool (score_of fs d) v) (map fst fs).
Proof.
  intros v. induction fs as [|[k x] fs IH]; intros H; simpl; [reflexivity|].
  inversion H as [|? ? Hk Hnd]; subst. unfold keep at 1. cbn [score].
  rewrite Nat.eqb_refl.
  assert (E : filter (fun d => Req_bool (if Nat.eqb k d then x else score_of fs d) v)
                     (map fst fs) =
              filter (fun d => Req_bool (score_of fs d) v) (map fst fs)).
  { apply filter_ext_in. intros d Hd. destruct (Nat.eqb k d) eqn:Ekd; [|reflexivity].
    apply Nat.eqb_eq in Ekd; subst. contradiction. }
  rewrite E, <- IH by exact Hnd.
  destruct (Req_bool x v); reflexivity.
Qed.

(** ** Concrete facts about the sample corpora *)

Lemma tf_value_1_1 : tf_value 1 1 = 100%R.
Proof. unfold tf_value; simpl; field. Qed.

Lemma idf_value_1_1 : idf_value 1 1 = 0%R.
Proof.
  unfold idf_value. replace (1 / (INR 1 / INR 1))%R with 1%R by (simpl; field).
  apply ln_1.
Qed.

Lemma idf_value_1_3_pos : (0 < idf_value 1 3)%R.
Proof.
  unfold idf_value. replace (1 / (INR 1 / INR 3))%R with 3%R by (simpl; field).
  rewrite <- ln_1. apply ln_increasing; lra.
Qed.

Lemma file_scores_single_cat :
  fst (file_scores "cat" single_cat) = [(0%nat, (0 + tf_value 1 1 * idf_value 1 1)%R)].
Proof. vm_compute. reflexivity. Qed.

Lemma file_scores_three_docs :
  fst (file_scores "dog cat" three_docs) =
  [(1%nat, (0 + tf_value 1 1 * idf_value 1 3)%R);
   (0%nat, (0 + tf_value 1 1 * idf_value 1 3)%R)].
Proof. vm_compute. reflexivity. Qed.

(* ================================================================== *)
(** * The claims *)

(** C1 (code bug).  The postings blob cannot be written: [save] raises
    [AttributeError] at the first posting of the first term ([bytes] has
    no [append]), leaving [index.dat] empty and no [directory.txt], so
    there is no byte range to decode and no round trip. *)
Theorem save_raises_on_first_posting : forall idx w loc locs rest,
  terms idx = (w, loc :: locs) :: rest ->
  save idx = Raised AttributeError
    (mkFiles (Some (concat_str (map format_doc (documents idx)))) (Some []) None).
Proof. intros idx w loc locs rest H. unfold save. rewrite H. reflexivity. Qed.

Lemma save_raises_on_first_posting_witness :
  terms scenario = ("cat", [mkLoc 0 [0]]) :: tl (terms scenario) /\
  save scenario = Raised AttributeError
    (mkFiles (Some (concat_str (map format_doc (documents scenario)))) (Some []) None).
Proof.
  split; [vm_compute; reflexivity|].
  apply (save_raises_on_first_posting scenario "cat" (mkLoc 0 [0]) [] (tl (terms scenario))).
  vm_compute. reflexivity.
Defined.

(** C2 (amended).  [search] returns a prefix of [file_scores] sorted by
    descending score; the sort is a stable permutation (results of equal
    score keep their order in [file_scores]), and [file_scores] holds
    every document reached through a posting of a query term, whatever
    its score, in the order [first_reached] in which documents are first
    reached while scanning the query's tokens and their postings; so the
    sorted results of any one score list their documents in that order. *)
Theorem search_ranking : forall q limit idx,
  fst (search q limit idx) =
    py_slice_to (sort_desc (to_results (fst (file_scores q idx)))) limit /\
  Sorted score_ge (fst (search q limit idx)) /\
  Permutation (to_results (fst (file_scores q idx)))
              (sort_desc (to_results (fst (file_scores q idx)))) /\
  (forall v, filter (keep v) (sort_desc (to_results (fst (file_scores q idx)))) =
             filter (keep v) (to_results (fst (file_scores q idx)))) /\
  (forall d, In d (map fst (fst (file_scores q idx))) <->
             exists w, In w (tokens q) /\
               exists loc, In loc (dict_get (terms idx) w []) /\ loc_doc loc = d) /\
  map fst (fst (file_scores q idx)) = first_reached q idx /\
  (forall v, map res_doc (filter (keep v) (sort_desc (to_results (fst (file_scores q idx))))) =
             filter (fun d => Req_bool (score_of (fst (file_scores q idx)) d) v)
                    (first_reached q idx)).
Proof.
  intros q limit idx. split; [apply search_run|]. split.
  { rewrite search_run. unfold py_slice_to. apply firstn_sorted, sort_desc_sorted. }
  split; [apply sort_desc_perm|]. split; [intros v; apply sort_desc_stable|].
  split.
  { intros d. unfold file_scores. rewrite foldM_score_word_keys. simpl.
    split; [intros [[]|H]; exact H | intros H; now right]. }
  split; [apply file_scores_order|].
  intros v. rewrite sort_desc_stable, filter_keep_keys by apply file_scores_nodup.
  now rewrite file_scores_order.
Qed.

(** C2 (counterexample).  A document whose only query term occurs in
    every document is returned with score 0; and with the query
    ["dog cat"] document 1 comes before document 0 at equal scores. *)
Lemma search_ranking_counterexample :
  (exists r, In r (fst (search "cat" 10 single_cat)) /\ ~ (0 < score r)%R) /\
  (exists s, fst (search "dog cat" 10 three_docs) = [mkResult 1 s; mkResult 0 s] /\
             (0 < s)%R).
Proof.
  split.
  - rewrite search_run, file_scores_single_cat.
    exists (mkResult 0 (0 + tf_value 1 1 * idf_value 1 1)%R). split.
    + simpl. now left.
    + simpl. rewrite idf_value_1_1. lra.
  - rewrite search_run, file_scores_three_docs.
    exists (0 + tf_value 1 1 * idf_value 1 3)%R. split.
    + unfold sort_desc, to_results; simpl.
      destruct (Rlt_dec _ _) as [H|_]; [lra | reflexivity].
    + rewrite tf_value_1_1. pose proof idf_value_1_3_pos. lra.
Qed.

(** C3 (code bug).  A document with no tokens makes [max] raise
    [ValueError] after the document has been appended to [documents]
    (with [max_tf = 0]): the call is not all-or-nothing, and there is no
    [EmptyDocument] condition. *)
Theorem add_doc_empty_not_atomic : forall idx filename text,
  tokens text = [] ->
  add_doc idx filename text =
    Raised ValueError
      (mkIndex (documents idx ++ [new_document (length (documents idx)) filename])
               (terms idx)).
Proof. intros idx filename text H. unfold add_doc, locs_in_file. rewrite H. reflexivity. Qed.

Lemma add_doc_empty_not_atomic_witness :
  tokens "" = [] /\
  add_doc empty_index "empty.txt" "" =
    Raised ValueError
      (mkIndex (documents empty_index ++
                [new_document (length (documents empty_index)) "empty.txt"])
               (terms empty_index)).
Proof. split; [reflexivity | apply add_doc_empty_not_atomic; reflexivity]. Defined.

(** C4 (amended).  [search] returns [results[:limit]] of the ranked list:
    the first [limit] results for [limit >= 0] (all of them when [limit]
    exceeds their number, none for [limit = 0]); a negative [limit] is no
    error but drops [-limit] results from the end. *)
Theorem search_limit : forall q limit idx,
  fst (search q limit idx) =
    firstn (if (limit <? 0)%Z
            then length (fst (file_scores q idx)) - Z.to_nat (- limit)
            else Z.to_nat limit)
           (sort_desc (to_results (fst (file_scores q idx)))) /\
  length (fst (search q limit idx)) =
    (if (limit <? 0)%Z
     then length (fst (file_scores q idx)) - Z.to_nat (- limit)
     else Nat.min (Z.to_nat limit) (length (fst (file_scores q idx)))).
Proof.
  intros q limit idx. rewrite search_run. unfold py_slice_to.
  rewrite sort_desc_length. unfold to_results. rewrite length_map.
  set (n := length (fst (file_scores q idx))).
  destruct (limit <? 0)%Z eqn:E.
  - apply Z.ltb_lt in E.
    assert (Hk : Z.to_nat (Z.of_nat n + limit) = n - Z.to_nat (- limit)) by lia.
    rewrite Hk. split; [reflexivity|].
    rewrite length_firstn, sort_desc_length, length_map. fold n. lia.
  - split; [reflexivity|].
    rewrite length_firstn, sort_desc_length, length_map. reflexivity.
Qed.

(** C4 (counterexample).  A negative limit is not an error: on the
    scenario corpus, ["cat sat"] with [limit = -1] returns one result. *)
Lemma search_limit_counterexample :
  length (fst (search "cat sat" (-1) scenario)) = 1.
Proof.
  rewrite search_run. unfold py_slice_to.
  rewrite length_firstn, sort_desc_length. unfold to_results. rewrite length_map.
  vm_compute. reflexivity.
Qed.

(** C5.  Every token is non-empty, lower-case, has a letter or digit, and
    is not a stop word. *)
Theorem tokens_wellformed : forall text,
  Forall (fun w => w <> "" /\ lower w = w /\ any_alnum w = true /\ ~ In w STOP_WORDS)
         (tokens text).
Proof.
  intros text. apply Forall_forall. intros w Hw.
  unfold tokens in Hw. apply filter_In in Hw as [Hs Hf].
  apply andb_prop in Hf as [Ha Hn]. apply negb_true_iff in Hn.
  destruct (split_aux_words (lower text) [] w Hs) as [Hne Hc].
  split; [exact Hne|]. split.
  { apply lower_id. intros c Hin. destruct (Hc c Hin) as [H|[]]. now apply In_lower in H. }
  split; [exact Ha|].
  intros Hin. unfold mem_stop in Hn.
  assert (existsb (fun s => String.eqb s w) STOP_WORDS = true)
    by (apply existsb_exists; exists w; split; [exact Hin | apply String.eqb_refl]).
  congruence.
Qed.

(** C6.  For a document ingested without error, each of its terms gets
    the posting [(id, offsets)] in [terms], and its
    [tf = 100 * len(offsets) / max_tf] satisfies [0 < tf <= 100], with
    [tf = 100] exactly when the term's count equals [max_tf]. *)
Theorem add_doc_tf_range : forall idx filename text idx',
  add_doc idx filename text = Returned idx' ->
  exists doc,
    nth_error (documents idx') (length (documents idx)) = Some doc /\
    doc_id doc = length (documents idx) /\
    forall w offs, In (w, offs) (locs_in_file text) ->
      In (mkLoc (length (documents idx)) offs) (dict_get (terms idx') w []) /\
      (0 < tf (documents idx') (mkLoc (length (documents idx)) offs) <= 100)%R /\
      (tf (documents idx') (mkLoc (length (documents idx)) offs) = 100%R <->
       length offs = max_tf doc).
Proof.
  intros idx filename text idx' H. unfold add_doc in H.
  destruct (py_max (map (fun p => length (snd p)) (locs_in_file text))) as [m|] eqn:Em;
    [|discriminate].
  injection H as <-.
  set (id := length (documents idx)).
  set (doc' := mkDocument id (doc_name (new_document id filename)) filename m).
  assert (Hnth : nth_error (documents idx ++ [doc']) id = Some doc').
  { rewrite nth_error_app2 by (unfold id; lia). unfold id; now rewrite Nat.sub_diag. }
  exists doc'. split; [exact Hnth|]. split; [reflexivity|].
  intros w offs Hin. split; [now apply fold_terms_append_adds|].
  assert (Hnth' : forall T, nth_error (documents (mkIndex (documents idx ++ [doc']) T)) id
                            = Some doc') by exact (fun _ => Hnth).
  unfold tf, doc_max_tf. cbn [loc_doc offsets]. rewrite Hnth'.
  assert (Hne : offs <> []).
  { pose proof (enumerate_locs_nonempty (tokens text) 0 [] (Forall_nil _)) as HF.
    rewrite Forall_forall in HF. exact (HF (w, offs) Hin). }
  assert (Hle : (length offs <= m)%nat).
  { pose proof (py_max_ge _ _ Em) as HF. rewrite Forall_forall in HF.
    apply HF. apply (in_map (fun p => length (snd p)) _ _ Hin). }
  destruct offs as [|o os]; [contradiction|].
  apply tf_value_range; simpl in *; lia.
Qed.

Lemma add_doc_tf_range_witness :
  add_doc empty_index "doc0.txt" "the cat sat on the cat" = Returned one_doc /\
  exists doc,
    nth_error (documents one_doc) (length (documents empty_index)) = Some doc /\
    doc_id doc = length (documents empty_index) /\
    forall w offs, In (w, offs) (locs_in_file "the cat sat on the cat") ->
      In (mkLoc (length (documents empty_index)) offs) (dict_get (terms one_doc) w []) /\
      (0 < tf (documents one_doc) (mkLoc (length (documents empty_index)) offs) <= 100)%R /\
      (tf (documents one_doc) (mkLoc (length (documents empty_index)) offs) = 100%R <->
       length offs = max_tf doc).
Proof.
  split; [vm_compute; reflexivity|].
  apply (add_doc_tf_range empty_index "doc0.txt" "the cat sat on the cat" one_doc).
  vm_compute. reflexivity.
Defined.

(** C7 (code bug).  The records of [documents.txt] are written with no
    line separator: the file is the plain concatenation of the
    ["name,filename,max_tf"] records, so two documents give one line
    (the records of [directory.txt] are formatted the same way, and that
    file is not even reached, see C1). *)
Theorem save_documents_txt_no_newline :
  (forall idx, documents_txt (files_of (save idx)) =
               Some (concat_str (map format_doc (documents idx)))) /\
  documents_txt (files_of (save scenario)) = Some "doc0,doc0.txt,1doc1,doc1.txt,1" /\
  directory_txt (files_of (save scenario)) = None.
Proof.
  split.
  - intros idx. unfold save.
    destruct (write_postings (terms idx) 0 [] []) as [[blob dir]|e [blob dir]]; reflexivity.
  - split; vm_compute; reflexivity.
Qed.

(** C8 (amended).  The display name is [filename.replace(".txt", "")]:
    every occurrence of [.txt] is removed, not only a trailing one.  A
    filename with no [.txt] is unchanged, and [base ++ ".txt"] with no
    ['.'] in [base] gives [base]. *)
Theorem document_name_replace : forall id filename base,
  doc_name (new_document id filename) = replace_txt filename /\
  (contains_txt filename = false -> doc_name (new_document id filename) = filename) /\
  ((forall c, In c (list_ascii_of_string base) -> Ascii.eqb c "." = false) ->
   doc_name (new_document id (String.append base ".txt")) = base).
Proof.
  intros id filename base. split; [reflexivity|]. split.
  - intros H. apply replace_txt_no_occurrence, H.
  - intros H. apply replace_txt_nodot_suffix, H.
Qed.

Lemma document_name_replace_witness :
  doc_name (new_document 0 "report") = "report" /\
  doc_name (new_document 0 (String.append "report" ".txt")) = "report".
Proof.
  destruct (document_name_replace 0 "report" "report") as [_ [H1 H2]].
  split; [apply H1; reflexivity|].
  apply H2. intros c Hc. simpl in Hc.
  repeat (destruct Hc as [<-|Hc]; [reflexivity|]). destruct Hc.
Defined.

(** C8 (counterexample).  ["notes.txt.bak"] has no trailing [.txt] but its
    display name is ["notes.bak"]. *)
Lemma document_name_counterexample :
  doc_name (new_document 0 "notes.txt.bak") = "notes.bak" /\
  doc_name (new_document 0 "notes.txt.bak") <> "notes.txt.bak".
Proof. split; [reflexivity | discriminate]. Qed.

(** C9.  [search] leaves the index (documents and term map, keys
    included) as it found it: [lookup] uses [dict.get], which does not
    insert. *)
Theorem search_frame : forall q limit idx, snd (search q limit idx) = idx.
Proof. intros q limit idx. apply search_reads_only. Qed.

(** C10.  A query term yielded [k] times adds its [tf * idf] contribution
    [k] times to the score of each document: the score of [d] in
    [file_scores] is [k] times the contribution of [t] plus the
    contributions of the other query words. *)
Theorem duplicate_query_terms : forall idx q t d,
  score_of (fst (file_scores q idx)) d =
  (INR (count_occ string_dec (tokens q) t) * contrib idx t d +
   sum_list (map (fun w => contrib idx w d)
                 (filter (fun w => negb (String.eqb w t)) (tokens q))))%R.
Proof.
  intros idx q t d. unfold file_scores. rewrite foldM_score_word_spec.
  rewrite (sum_list_count (fun w => contrib idx w d) t). simpl. ring.
Qed.

(* ================================================================== *)
(** * Further properties of the code *)

(** ** Tokenizer *)

Lemma lower_app : forall s1 s2,
  lower (String.append s1 s2) = String.append (lower s1) (lower s2).
Proof. induction s1 as [|c s1 IH]; intros s2; simpl; [reflexivity | now rewrite IH]. Qed.

Lemma lower_char_idem : forall c, lower_char (lower_char c) = lower_char c.
Proof. intros c; destruct c as [[] [] [] [] [] [] [] []]; reflexivity. Qed.

Lemma lower_idem : forall s, lower (lower s) = lower s.
Proof. induction s as [|c s IH]; simpl; [reflexivity | now rewrite lower_char_idem, IH]. Qed.

Lemma lower_char_space : forall c, is_space c = true -> lower_char c = c.
Proof.
  intros c H; destruct c as [[] [] [] [] [] [] [] []]; try reflexivity; discriminate H.
Qed.

Lemma split_aux_app_space : forall s1 s2 c cur, is_space c = true ->
  split_aux (String.append s1 (String c s2)) cur = split_aux s1 cur ++ split_aux s2 [].
Proof.
  induction s1 as [|c1 s1 IH]; intros s2 c cur H; simpl.
  - rewrite H. destruct cur; reflexivity.
  - destruct (is_space c1); [|now apply IH].
    destruct cur; rewrite (IH s2 c [] H); reflexivity.
Qed.

(** Tokenizing two texts joined by a whitespace character gives the
    tokens of the first followed by the tokens of the second. *)
Theorem tokens_app_space : forall s1 c s2, is_space c = true ->
  tokens (String.append s1 (String c s2)) = tokens s1 ++ tokens s2.
Proof.
  intros s1 c s2 H. unfold tokens, split.
  rewrite lower_app. cbn [lower]. rewrite lower_char_space by exact H.
  rewrite split_aux_app_space by exact H. apply filter_app.
Qed.

Lemma tokens_app_space_witness :
  is_space " " = true /\
  tokens (String.append "The cat" (String " " "sat on mats")) =
  tokens "The cat" ++ tokens "sat on mats".
Proof. split; [reflexivity | apply tokens_app_space; reflexivity]. Defined.

Lemma tokens_lower : forall text, tokens (lower text) = tokens text.
Proof. intros text; unfold tokens; now rewrite lower_idem. Qed.

(** Search is case-insensitive in the query: [search(q)] and
    [search(q.lower())] give the same results and the same state. *)
Theorem search_case_insensitive : forall q limit idx,
  search (lower q) limit idx = search q limit idx.
Proof. intros q limit idx. unfold search, file_scores. now rewrite tokens_lower. Qed.

(** ** Offsets recorded by [add_doc] *)

Lemma dict_get_append_offset : forall m w' i w,
  dict_get (append_offset m w' i) w [] =
  dict_get m w [] ++ (if String.eqb w' w then [i] else []).
Proof.
  induction m as [|[k offs] m IH]; intros w' i w; simpl.
  - destruct (String.eqb w' w); reflexivity.
  - destruct (String.eqb k w') eqn:Ekw'.
    + apply String.eqb_eq in Ekw'; subst k. simpl.
      destruct (String.eqb w' w); [reflexivity | now rewrite app_nil_r].
    + simpl. rewrite IH. destruct (String.eqb k w) eqn:Ekw; [|reflexivity].
      apply String.eqb_eq in Ekw; subst k.
      destruct (String.eqb w' w) eqn:E; [|now rewrite app_nil_r].
      apply String.eqb_eq in E; subst w'. now rewrite String.eqb_refl in Ekw'.
Qed.

Lemma dict_get_enumerate_locs : forall ws i m w,
  dict_get (enumerate_locs ws i m) w [] = dict_get m w [] ++ positions ws w i.
Proof.
  induction ws as [|x ws IH]; intros i m w; simpl; [now rewrite app_nil_r|].
  rewrite IH, dict_get_append_offset, <- app_assoc.
  destruct (String.eqb x w); reflexivity.
Qed.

Lemma positions_spec : forall ws w i j,
  In j (positions ws w i) <-> (i <= j)%nat /\ nth_error ws (j - i) = Some w.
Proof.
  induction ws as [|x ws IH]; intros w i j; simpl.
  - split; [contradiction|]. intros [_ H]. now destruct (j - i).
  - destruct (String.eqb x w) eqn:E.
    + apply String.eqb_eq in E; subst x. simpl. rewrite IH. split.
      * intros [<-|[H1 H2]]; [split; [lia | now rewrite Nat.sub_diag]|].
        split; [lia|]. replace (j - i) with (S (j - S i)) by lia. exact H2.
      * intros [H1 H2]. destruct (Nat.eq_dec i j) as [->|Hne]; [now left|].
        right. split; [lia|]. replace (j - i) with (S (j - S i)) in H2 by lia. exact H2.
    + rewrite IH. apply String.eqb_neq in E. split.
      * intros [H1 H2]. split; [lia|]. replace (j - i) with (S (j - S i)) by lia. exact H2.
      * intros [H1 H2]. destruct (Nat.eq_dec i j) as [->|Hne].
        -- rewrite Nat.sub_diag in H2. simpl in H2. congruence.
        -- split; [lia|]. replace (j - i) with (S (j - S i)) in H2 by lia. exact H2.
Qed.

Lemma positions_sorted : forall ws w i,
  StronglySorted lt (positions ws w i) /\ Forall (fun j => i <= j)%nat (positions ws w i).
Proof.
  induction ws as [|x ws IH]; intros w i; simpl; [split; constructor|].
  destruct (IH w (S i)) as [Hs Hf].
  destruct (String.eqb x w); [|split; [exact Hs | eapply Forall_impl; [|exact Hf]; simpl; lia]].
  split; [constructor; [exact Hs | eapply Forall_impl; [|exact Hf]; simpl; lia]|].
  constructor; [lia | eapply Forall_impl; [|exact Hf]; simpl; lia].
Qed.

Lemma positions_length : forall ws w i,
  length (positions ws w i) = count_occ string_dec ws w.
Proof.
  induction ws as [|x ws IH]; intros w i; simpl; [reflexivity|].
  destruct (String.eqb x w) eqn:E; destruct (string_dec x w) as [->|Hne].
  - simpl; now rewrite IH.
  - apply String.eqb_eq in E; contradiction.
  - now rewrite String.eqb_refl in E.
  - apply IH.
Qed.

(** The offsets [add_doc] records for a term are exactly the positions of
    that term among the document's tokens, in strictly increasing order;
    their number is the term's occurrence count. *)
Theorem locs_in_file_offsets : forall text w,
  (forall j, In j (dict_get (locs_in_file text) w []) <-> nth_error (tokens text) j = Some w) /\
  StronglySorted lt (dict_get (locs_in_file text) w []) /\
  length (dict_get (locs_in_file text) w []) = count_occ string_dec (tokens text) w.
Proof.
  intros text w. unfold locs_in_file. rewrite dict_get_enumerate_locs. simpl.
  split; [|split].
  - intros j. rewrite positions_spec, Nat.sub_0_r. split; [tauto | intros H; split; [lia | exact H]].
  - apply positions_sorted.
  - apply positions_length.
Qed.

Lemma append_offset_keys : forall m w i k,
  In k (map fst (append_offset m w i)) <-> In k (map fst m) \/ k = w.
Proof.
  induction m as [|[k' offs] m IH]; intros w i k; simpl.
  - intuition.
  - destruct (String.eqb k' w) eqn:E; simpl.
    + apply String.eqb_eq in E; subst k'. intuition.
    + rewrite IH. intuition.
Qed.

Lemma append_offset_nodup : forall m w i,
  NoDup (map fst m) -> NoDup (map fst (append_offset m w i)).
Proof.
  induction m as [|[k offs] m IH]; intros w i H; simpl.
  - repeat constructor; simpl; tauto.
  - inversion H as [|? ? Hk Hm]; subst.
    destruct (String.eqb k w) eqn:E; simpl; constructor; auto.
    rewrite append_offset_keys. intros [H1|H1]; [contradiction|].
    subst; now rewrite String.eqb_refl in E.
Qed.

Lemma enumerate_locs_keys : forall ws i m k,
  In k (map fst (enumerate_locs ws i m)) <-> In k (map fst m) \/ In k ws.
Proof.
  induction ws as [|x ws IH]; intros i m k; simpl; [tauto|].
  rewrite IH, append_offset_keys. intuition.
Qed.

Lemma enumerate_locs_nodup : forall ws i m,
  NoDup (map fst m) -> NoDup (map fst (enumerate_locs ws i m)).
Proof.
  induction ws as [|x ws IH]; intros i m H; simpl; [exact H|].
  apply IH, append_offset_nodup, H.
Qed.

Lemma dict_get_nodup_In : forall {V} (d : list (string * V)) k v dflt,
  NoDup (map fst d) -> In (k, v) d -> dict_get d k dflt = v.
Proof.
  intros V; induction d as [|[k' v'] d IH]; intros k v dflt Hnd Hin; simpl in *;
    [contradiction|].
  inversion Hnd as [|? ? Hk Hd]; subst.
  destruct Hin as [E|Hin].
  - injection E as -> ->. now rewrite String.eqb_refl.
  - destruct (String.eqb k' k) eqn:E.
    + apply String.eqb_eq in E; subst k'.
      exfalso; apply Hk. apply (in_map fst _ _ Hin).
    + now apply IH.
Qed.

Lemma dict_get_found : forall {V} (d : list (string * V)) k (dflt : V),
  dict_get d k dflt <> dflt -> In (k, dict_get d k dflt) d.
Proof.
  intros V; induction d as [|[k' v'] d IH]; intros k dflt H; simpl in *; [now destruct H|].
  destruct (String.eqb k' k) eqn:E.
  - apply String.eqb_eq in E; subst k'. now left.
  - right. now apply IH.
Qed.

Lemma fold_max_in : forall l x, In (fold_left Nat.max l x) (x :: l).
Proof.
  induction l as [|y l IH]; intros x; simpl; [now left|].
  destruct (IH (Nat.max x y)) as [H|H]; [|right; right; exact H].
  rewrite <- H. destruct (Nat.max_spec x y) as [[_ ->]|[_ ->]]; [right; now left | now left].
Qed.

Lemma locs_in_file_count : forall text w,
  length (dict_get (locs_in_file text) w []) = count_occ string_dec (tokens text) w.
Proof.
  intros text w. unfold locs_in_file. rewrite dict_get_enumerate_locs. apply positions_length.
Qed.

(** The [max_tf] that [add_doc] stores is the highest occurrence count of
    any token of the document, and some token of the document reaches it. *)
Theorem add_doc_max_tf : forall idx filename text idx',
  add_doc idx filename text = Returned idx' ->
  exists doc,
    nth_error (documents idx') (length (documents idx)) = Some doc /\
    (forall w, count_occ string_dec (tokens text) w <= max_tf doc)%nat /\
    exists w, In w (tokens text) /\ count_occ string_dec (tokens text) w = max_tf doc.
Proof.
  intros idx filename text idx' H. unfold add_doc in H.
  destruct (py_max (map (fun p => length (snd p)) (locs_in_file text))) as [m|] eqn:Em;
    [|discriminate].
  injection H as <-. cbn [documents].
  eexists. split.
  { rewrite nth_error_app2, Nat.sub_diag by lia. reflexivity. }
  cbn [max_tf].
  assert (Hnd : NoDup (map fst (locs_in_file text)))
    by (apply enumerate_locs_nodup; constructor).
  split.
  - intros w. rewrite <- locs_in_file_count.
    destruct (dict_get (locs_in_file text) w []) as [|o os] eqn:E; [simpl; lia|].
    assert (Hin : In (w, o :: os) (locs_in_file text))
      by (rewrite <- E; apply dict_get_found; rewrite E; discriminate).
    pose proof (py_max_ge _ _ Em) as HF. rewrite Forall_forall in HF.
    apply HF. apply (in_map (fun p => length (snd p)) _ _ Hin).
  - destruct (map (fun p => length (snd p)) (locs_in_file text)) as [|x l] eqn:El;
      [discriminate|].
    simpl in Em; injection Em as <-.
    assert (Hm : In (fold_left Nat.max l x) (map (fun p => length (snd p)) (locs_in_file text)))
      by (rewrite El; apply fold_max_in).
    apply in_map_iff in Hm as [[k offs] [Hlen Hin]]. simpl in Hlen.
    exists k. rewrite <- locs_in_file_count, (dict_get_nodup_In _ _ _ _ Hnd Hin).
    split; [|exact Hlen].
    pose proof (enumerate_locs_nonempty (tokens text) 0 [] (Forall_nil _)) as HF.
    rewrite Forall_forall in HF. specialize (HF _ Hin). simpl in HF.
    destruct offs as [|j js]; [contradiction|].
    assert (Hj : In j (dict_get (locs_in_file text) k [])).
    { rewrite (dict_get_nodup_In _ _ _ _ Hnd Hin). now left. }
    unfold locs_in_file in Hj. rewrite dict_get_enumerate_locs in Hj. simpl in Hj.
    apply positions_spec in Hj as [_ Hj]. rewrite Nat.sub_0_r in Hj.
    eapply nth_error_In; exact Hj.
Qed.

Lemma add_doc_max_tf_witness :
  add_doc empty_index "doc0.txt" "the cat sat on the cat" = Returned one_doc /\
  exists doc,
    nth_error (documents one_doc) (length (documents empty_index)) = Some doc /\
    (forall w, count_occ string_dec (tokens "the cat sat on the cat") w <= max_tf doc)%nat /\
    exists w, In w (tokens "the cat sat on the cat") /\
              count_occ string_dec (tokens "the cat sat on the cat") w = max_tf doc.
Proof.
  split; [vm_compute; reflexivity|].
  apply (add_doc_max_tf empty_index "doc0.txt" "the cat sat on the cat" one_doc).
  vm_compute. reflexivity.
Defined.

(** ** The index invariant *)

Lemma dict_get_fold_terms_append : forall id lf t w,
  dict_get (fold_left (fun t p => terms_append t (fst p) (mkLoc id (snd p))) lf t) w [] =
  dict_get t w [] ++
  map (fun p => mkLoc id (snd p)) (filter (fun p => String.eqb (fst p) w) lf).
Proof.
  induction lf as [|p lf IH]; intros t w; simpl; [now rewrite app_nil_r|].
  rewrite IH, dict_get_terms_append.
  destruct (String.eqb (fst p) w); simpl; [now rewrite <- app_assoc | reflexivity].
Qed.

Lemma filter_key_absent : forall {V} (l : list (string * V)) w,
  ~ In w (map fst l) -> filter (fun p => String.eqb (fst p) w) l = [].
Proof.
  intros V; induction l as [|[k v] l IH]; intros w H; simpl in *; [reflexivity|].
  destruct (String.eqb k w) eqn:E.
  - apply String.eqb_eq in E; subst; tauto.
  - apply IH; tauto.
Qed.

Lemma filter_key_nodup : forall {V} (l : list (string * V)) w,
  NoDup (map fst l) ->
  filter (fun p => String.eqb (fst p) w) l = [] \/
  exists v, filter (fun p => String.eqb (fst p) w) l = [(w, v)] /\ In (w, v) l.
Proof.
  intros V; induction l as [|[k v] l IH]; intros w H; simpl; [now left|].
  inversion H as [|? ? Hk Hl]; subst.
  destruct (String.eqb k w) eqn:E.
  - apply String.eqb_eq in E; subst k. right. exists v.
    rewrite filter_key_absent by exact Hk. split; [reflexivity | now left].
  - destruct (IH w Hl) as [H1|[v' [H1 H2]]]; [now left | right; exists v'; auto].
Qed.

Lemma terms_append_nonempty : forall t w l,
  Forall (fun p => snd p <> []) t -> Forall (fun p => snd p <> []) (terms_append t w l).
Proof.
  induction t as [|[k ls] t IH]; intros w l H; simpl.
  - constructor; [simpl; discriminate | constructor].
  - inversion H as [|? ? Hk Ht]; subst. destruct (String.eqb k w).
    + constructor; [simpl; intros E; apply app_eq_nil in E as [_ E]; discriminate | exact Ht].
    + constructor; [exact Hk | now apply IH].
Qed.

Lemma fold_terms_append_nonempty : forall id lf t,
  Forall (fun p => snd p <> []) t ->
  Forall (fun p => snd p <> [])
         (fold_left (fun t p => terms_append t (fst p) (mkLoc id (snd p))) lf t).
Proof.
  induction lf as [|p lf IH]; intros t H; simpl; [exact H|].
  apply IH, terms_append_nonempty, H.
Qed.

Lemma StronglySorted_app_last : forall {A} (R : A -> A -> Prop) l x,
  StronglySorted R l -> Forall (fun y => R y x) l -> StronglySorted R (l ++ [x]).
Proof.
  intros A R; induction l as [|y l IH]; intros x Hs Hf; simpl.
  - repeat constructor.
  - apply StronglySorted_inv in Hs as [Hs Hy]. inversion Hf as [|? ? Hyx Hl]; subst.
    constructor; [now apply IH|]. apply Forall_app; split; [exact Hy | now constructor].
Qed.

Lemma postings_ok_mono : forall n n' l, (n <= n')%nat -> postings_ok n l -> postings_ok n' l.
Proof.
  intros n n' l Hle [Hs Hf]. split; [exact Hs|].
  eapply Forall_impl; [|exact Hf]. simpl; intros a [H1 H2]; split; [lia | exact H2].
Qed.

Lemma postings_ok_snoc : forall n l offs,
  postings_ok n l -> offs <> [] -> postings_ok (S n) (l ++ [mkLoc n offs]).
Proof.
  intros n l offs [Hs Hf] Hne. split.
  - apply StronglySorted_app_last; [exact Hs|].
    eapply Forall_impl; [|exact Hf]. simpl; intros a [H _]; exact H.
  - apply Forall_app; split.
    + eapply Forall_impl; [|exact Hf]. simpl; intros a [H1 H2]; split; [lia | exact H2].
    + constructor; [simpl; split; [lia | exact Hne] | constructor].
Qed.

Lemma doc_ids_snoc : forall docs d,
  (forall k doc, nth_error docs k = Some doc -> doc_id doc = k) ->
  doc_id d = length docs ->
  forall k doc, nth_error (docs ++ [d]) k = Some doc -> doc_id doc = k.
Proof.
  intros docs d H Hd k doc Hk.
  destruct (Nat.lt_ge_cases k (length docs)) as [Hlt|Hge].
  - rewrite nth_error_app1 in Hk by exact Hlt. now apply H.
  - rewrite nth_error_app2 in Hk by exact Hge.
    destruct (k - length docs) as [|j] eqn:E; simpl in Hk.
    + injection Hk as <-. lia.
    + now destruct j.
Qed.

Lemma add_doc_keeps_ok : forall idx filename text,
  index_ok idx -> index_ok (index_of (add_doc idx filename text)).
Proof.
  intros idx filename text [Hids [Hne Hpost]]. unfold add_doc, index_ok.
  destruct (py_max (map (fun p => length (snd p)) (locs_in_file text))) as [m|];
    cbn [index_of documents terms].
  - split; [|split].
    + apply doc_ids_snoc; [exact Hids | reflexivity].
    + apply fold_terms_append_nonempty, Hne.
    + intros w. rewrite dict_get_fold_terms_append, length_app. simpl.
      rewrite Nat.add_1_r.
      assert (Hnd : NoDup (map fst (locs_in_file text)))
        by (apply enumerate_locs_nodup; constructor).
      destruct (filter_key_nodup (locs_in_file text) w Hnd) as [E|[offs [E Hin]]];
        rewrite E; simpl.
      * rewrite app_nil_r. eapply postings_ok_mono; [|apply Hpost]. lia.
      * apply postings_ok_snoc; [apply Hpost|].
        pose proof (enumerate_locs_nonempty (tokens text) 0 [] (Forall_nil _)) as HF.
        rewrite Forall_forall in HF. exact (HF _ Hin).
  - split; [|split].
    + apply doc_ids_snoc; [exact Hids | reflexivity].
    + exact Hne.
    + intros w. rewrite length_app. eapply postings_ok_mono; [|apply Hpost]. simpl; lia.
Qed.

Lemma empty_index_ok : index_ok empty_index.
Proof.
  split; [|split].
  - intros [|k] doc H; discriminate.
  - constructor.
  - intros w; split; constructor.
Qed.


Lemma add_docs_index_ok_gen : forall files idx,
  index_ok idx -> index_ok (index_of (add_docs idx files)).
Proof.
  induction files as [|[f txt] files IH]; intros idx H; simpl; [exact H|].
  pose proof (add_doc_keeps_ok idx f txt H) as H'.
  destruct (add_doc idx f txt) as [idx'|e idx']; simpl in *; [now apply IH | exact H'].
Qed.

Lemma built_index_ok : forall files, index_ok (index_of (add_docs empty_index files)).
Proof. intros files. apply add_docs_index_ok_gen, empty_index_ok. Qed.

(** ** Document frequency and [idf] *)

Lemma sorted_ids_nodup : forall (l : list Loc),
  StronglySorted (fun a b => loc_doc a < loc_doc b)%nat l -> NoDup (map loc_doc l).
Proof.
  induction l as [|a l IH]; intros H; simpl; [constructor|].
  apply StronglySorted_inv in H as [Hs Hf]. constructor; [|now apply IH].
  intros Hin. apply in_map_iff in Hin as [b [Hb Hin]].
  rewrite Forall_forall in Hf. specialize (Hf b Hin). lia.
Qed.

Lemma postings_ok_length : forall n l, postings_ok n l -> (length l <= n)%nat.
Proof.
  intros n l [Hs Hf]. rewrite <- length_map with (f := loc_doc), <- (length_seq n 0).
  apply NoDup_incl_length; [now apply sorted_ids_nodup|].
  intros d Hd. apply in_map_iff in Hd as [b [<- Hin]].
  rewrite Forall_forall in Hf. apply in_seq. specialize (Hf b Hin). lia.
Qed.

Lemma postings_df_bound : forall idx w,
  index_ok idx -> (length (dict_get (terms idx) w []) <= length (documents idx))%nat.
Proof. intros idx w [_ [_ H]]. apply postings_ok_length, H. Qed.


Lemma ln_le_mono : forall x y, (0 < x)%R -> (x <= y)%R -> (ln x <= ln y)%R.
Proof.
  intros x y Hx [Hlt | ->]; [left; now apply ln_increasing | right; reflexivity].
Qed.

Lemma idf_value_eq : forall d n, (1 <= d)%nat -> (1 <= n)%nat ->
  idf_value d n = ln (INR n / INR d).
Proof.
  intros d n Hd Hn. apply le_INR in Hd, Hn. simpl in Hd, Hn.
  unfold idf_value. f_equal. field. lra.
Qed.

Lemma idf_value_props : forall d1 d2 n,
  (1 <= d1)%nat -> (d1 <= d2)%nat -> (d2 <= n)%nat ->
  idf_value n n = 0%R /\ (0 <= idf_value d2 n)%R /\ (idf_value d2 n <= idf_value d1 n)%R.
Proof.
  intros d1 d2 n H1 H12 H2n.
  rewrite !idf_value_eq by lia.
  apply le_INR in H1, H12, H2n. simpl in H1.
  split; [|split].
  - replace (INR n / INR n)%R with 1%R by (field; lra). apply ln_1.
  - rewrite <- ln_1. apply ln_le_mono; [lra|].
    apply Rmult_le_reg_r with (INR d2); [lra|]. unfold Rdiv.
    rewrite Rmult_assoc, Rinv_l by lra. lra.
  - apply ln_le_mono.
    + apply Rdiv_lt_0_compat; lra.
    + unfold Rdiv. apply Rmult_le_compat_l; [lra|].
      apply Rinv_le_contravar; lra.
Qed.


(** [Index.idf] returns [None] exactly for a term with no postings, and
    otherwise, in an index that keeps the invariant, a value [>= 0]. *)
Theorem idf_spec : forall idx w,
  index_ok idx ->
  (fst (idf w idx) = None <-> dict_get (terms idx) w [] = []) /\
  (forall v, fst (idf w idx) = Some v -> (0 <= v)%R).
Proof.
  intros idx w Hok. pose proof (postings_df_bound idx w Hok) as Hdf.
  unfold idf, bind, lookup, get_documents, ret. cbn [fst].
  destruct (dict_get (terms idx) w []) as [|l ls]; split.
  - split; reflexivity.
  - discriminate.
  - split; discriminate.
  - intros v Hv. injection Hv as <-.
    apply (idf_value_props (length (l :: ls)) (length (l :: ls)) (length (documents idx)));
      simpl in *; lia.
Qed.

Lemma idf_spec_witness :
  index_ok scenario /\
  (fst (idf "cat" scenario) = None <-> dict_get (terms scenario) "cat" [] = []) /\
  (forall v, fst (idf "cat" scenario) = Some v -> (0 <= v)%R).
Proof. split; [apply built_index_ok | apply idf_spec, built_index_ok]. Defined.

(** [add_doc] keeps the index invariant, whether it returns or raises. *)
Theorem add_doc_index_ok : forall idx filename text,
  index_ok idx -> index_ok (index_of (add_doc idx filename text)).
Proof. exact add_doc_keeps_ok. Qed.

Lemma add_doc_index_ok_witness :
  index_ok empty_index /\ index_ok (index_of (add_doc empty_index "doc0.txt" "the cat sat")).
Proof. split; [exact empty_index_ok | apply add_doc_index_ok, empty_index_ok]. Defined.

(** Every index built by [Index.__init__] from a list of files satisfies
    the invariant, also when an empty file stops the construction. *)
Theorem index_init_ok : forall files, index_ok (index_of (add_docs empty_index files)).
Proof. exact built_index_ok. Qed.

(** In an index that keeps the invariant, a term's document frequency is
    at most the number of documents. *)
Theorem df_le_documents : forall idx w,
  index_ok idx -> (length (dict_get (terms idx) w []) <= length (documents idx))%nat.
Proof. exact postings_df_bound. Qed.

Lemma df_le_documents_witness :
  index_ok scenario /\
  (length (dict_get (terms scenario) "sat" []) <= length (documents scenario))%nat.
Proof. split; [apply built_index_ok | apply df_le_documents, built_index_ok]. Defined.

(** [idf(term) = log(N/df)] is 0 for a term in every document, at least 0
    for [1 <= df <= N], and does not increase as [df] grows. *)
Theorem idf_value_bounds : forall d1 d2 n,
  (1 <= d1)%nat -> (d1 <= d2)%nat -> (d2 <= n)%nat ->
  idf_value n n = 0%R /\ (0 <= idf_value d2 n)%R /\ (idf_value d2 n <= idf_value d1 n)%R.
Proof. exact idf_value_props. Qed.

Lemma idf_value_bounds_witness :
  (idf_value 3 3 = 0 /\ 0 <= idf_value 2 3 /\ idf_value 2 3 <= idf_value 1 3)%R.
Proof. apply idf_value_bounds; lia. Defined.

(** ** What [search] returns *)

Lemma tf_value_nonneg : forall c m, (0 <= tf_value c m)%R.
Proof.
  intros c m. unfold tf_value, Rdiv.
  apply Rmult_le_pos; [apply Rmult_le_pos; [lra | apply pos_INR]|].
  destruct (Req_dec (INR m) 0) as [E|E]; [rewrite E, Rinv_0; lra|].
  left. apply Rinv_0_lt_compat. pose proof (pos_INR m). lra.
Qed.

Lemma add_score_nonneg : forall fs d v, (0 <= v)%R ->
  Forall (fun p => 0 <= snd p)%R fs -> Forall (fun p => 0 <= snd p)%R (add_score fs d v).
Proof.
  induction fs as [|[k x] fs IH]; intros d v Hv Hf; simpl.
  - constructor; [simpl; lra | constructor].
  - inversion Hf as [|? ? Hx Hfs]; subst. simpl in Hx.
    destruct (Nat.eqb k d); constructor; simpl; auto; lra.
Qed.

Lemma fold_add_score_nonneg : forall (g : Loc -> R) locs fs,
  (forall loc, In loc locs -> 0 <= g loc)%R ->
  Forall (fun p => 0 <= snd p)%R fs ->
  Forall (fun p => 0 <= snd p)%R
    (fold_left (fun fs loc => add_score fs (loc_doc loc) (g loc)) locs fs).
Proof.
  intros g; induction locs as [|loc locs IH]; intros fs Hg Hf; simpl; [exact Hf|].
  apply IH; [intros; apply Hg; now right|]. apply add_score_nonneg; auto. apply Hg; now left.
Qed.

Lemma foldM_score_word_nonneg : forall ws fs s, index_ok s ->
  Forall (fun p => 0 <= snd p)%R fs ->
  Forall (fun p => 0 <= snd p)%R (fst (foldM score_word ws fs s)).
Proof.
  induction ws as [|w ws IH]; intros fs s Hok Hf; simpl; [exact Hf|].
  rewrite bind_run by apply score_word_reads_only. apply IH; [exact Hok|].
  rewrite score_word_run. pose proof (postings_df_bound s w Hok) as Hdf.
  destruct (dict_get (terms s) w []) as [|l ls] eqn:E; [exact Hf|].
  apply fold_add_score_nonneg; [|exact Hf]. intros loc _.
  apply Rmult_le_pos; [apply tf_value_nonneg|].
  apply (idf_value_props (length (l :: ls)) (length (l :: ls))); simpl in *; lia.
Qed.

Lemma In_py_slice_to : forall {A} (l : list A) limit x, In x (py_slice_to l limit) -> In x l.
Proof.
  intros A l limit x H. unfold py_slice_to in H.
  rewrite <- (firstn_skipn (Z.to_nat (if (limit <? 0)%Z then (Z.of_nat (length l) + limit)%Z
                                     else limit)) l).
  apply in_or_app. now left.
Qed.

Lemma In_sort_desc : forall l x, In x (sort_desc l) -> In x l.
Proof. intros l x H. eapply Permutation_in; [symmetry; apply sort_desc_perm | exact H]. Qed.

Lemma In_search : forall q limit s r,
  In r (fst (search q limit s)) -> In (res_doc r, score r) (fst (file_scores q s)).
Proof.
  intros q limit s r H. rewrite search_run in H.
  apply In_py_slice_to, In_sort_desc in H. unfold to_results in H.
  apply in_map_iff in H as [[d x] [<- Hin]]. exact Hin.
Qed.

(** On an index built by ingestion, every score that [search] returns is
    at least 0: each term adds [tf * idf] with [tf >= 0] and
    [idf = log(N/df) >= 0] since [df <= N]. *)
Theorem search_scores_nonneg : forall q limit idx,
  index_ok idx -> Forall (fun r => 0 <= score r)%R (fst (search q limit idx)).
Proof.
  intros q limit idx Hok. apply Forall_forall. intros r Hr.
  apply In_search in Hr.
  assert (Hf : Forall (fun p => 0 <= snd p)%R (fst (file_scores q idx)))
    by (apply foldM_score_word_nonneg; [exact Hok | constructor]).
  rewrite Forall_forall in Hf. exact (Hf _ Hr).
Qed.

Lemma search_scores_nonneg_witness :
  index_ok scenario /\ Forall (fun r => 0 <= score r)%R (fst (search "cat sat" 10 scenario)).
Proof. split; [apply built_index_ok | apply search_scores_nonneg, built_index_ok]. Defined.

Lemma NoDup_firstn_of : forall {A} n (l : list A), NoDup l -> NoDup (firstn n l).
Proof.
  intros A n l H. rewrite <- (firstn_skipn n l) in H. eapply NoDup_app_remove_r, H.
Qed.

(** [search] returns each document at most once: [file_scores] is keyed by
    document, and sorting and slicing keep the keys distinct. *)
Theorem search_distinct_docs : forall q limit idx,
  NoDup (map res_doc (fst (search q limit idx))).
Proof.
  intros q limit idx. rewrite search_run. unfold py_slice_to. rewrite <- firstn_map.
  apply NoDup_firstn_of. eapply Permutation_NoDup.
  - apply Permutation_map, sort_desc_perm.
  - unfold to_results. rewrite map_map. cbn [res_doc]. apply file_scores_nodup.
Qed.

Lemma score_of_In : forall fs d x,
  NoDup (map fst fs) -> In (d, x) fs -> score_of fs d = x.
Proof.
  induction fs as [|[k y] fs IH]; intros d x Hnd Hin; [destruct Hin|].
  inversion Hnd as [|? ? Hk Hnd']; subst. simpl.
  destruct Hin as [E|Hin].
  - injection E as -> ->. now rewrite Nat.eqb_refl.
  - destruct (Nat.eqb k d) eqn:E.
    + apply Nat.eqb_eq in E; subst k. exfalso. apply Hk.
      apply in_map_iff. now exists (d, x).
    + now apply IH.
Qed.

(** The score of every result is the sum, over the query's tokens with
    their repetitions, of the [tf * idf] that each token's postings give
    the result's document. *)
Theorem search_score_sum : forall q limit idx r,
  In r (fst (search q limit idx)) ->
  score r = sum_list (map (fun w => contrib idx w (res_doc r)) (tokens q)).
Proof.
  intros q limit idx r Hr. apply In_search in Hr.
  rewrite <- (score_of_In _ _ _ (file_scores_nodup q idx) Hr).
  unfold file_scores. rewrite foldM_score_word_spec. simpl. ring.
Qed.

Lemma search_score_sum_witness :
  In (mkResult 0 (tf_value 1 1 * idf_value 1 1)%R) (fst (search "cat" 10 single_cat)) /\
  score (mkResult 0 (tf_value 1 1 * idf_value 1 1)%R) =
    sum_list (map (fun w => contrib single_cat w 0) (tokens "cat")).
Proof.
  assert (H : In (mkResult 0 (tf_value 1 1 * idf_value 1 1)%R)
                 (fst (search "cat" 10 single_cat))).
  { rewrite search_run, file_scores_single_cat. simpl. left. f_equal. ring. }
  split; [exact H | exact (search_score_sum "cat" 10 single_cat _ H)].
Defined.

(** When none of the query's tokens has postings, [search] returns no
    result. *)
Theorem search_no_postings : forall q limit idx,
  (forall w, In w (tokens q) -> dict_get (terms idx) w [] = []) ->
  fst (search q limit idx) = [].
Proof.
  intros q limit idx H. rewrite search_run.
  destruct (fst (file_scores q idx)) as [|[d x] fs] eqn:E.
  - unfold py_slice_to. simpl. apply firstn_nil.
  - exfalso. assert (Hin : In d (map fst (fst (file_scores q idx)))) by (rewrite E; now left).
    unfold file_scores in Hin. rewrite foldM_score_word_keys in Hin.
    destruct Hin as [[]|[w [Hw [loc [Hloc _]]]]]. rewrite (H w Hw) in Hloc. destruct Hloc.
Qed.

Lemma search_no_postings_witness :
  (forall w, In w (tokens "cat dog") -> dict_get (terms empty_index) w [] = []) /\
  fst (search "cat dog" 10 empty_index) = [].
Proof.
  assert (H : forall w, In w (tokens "cat dog") -> dict_get (terms empty_index) w [] = [])
    by (intros; reflexivity).
  split; [exact H | exact (search_no_postings _ 10 _ H)].
Defined.

(** ** Tokens joined by spaces *)

(* [tokens] distributes over a whitespace character; see [tokens_app_space]. *)
Lemma tokens_app_space_char : forall s1 c s2, is_space c = true ->
  tokens (String.append s1 (String c s2)) = tokens s1 ++ tokens s2.
Proof.
  intros s1 c s2 H. unfold tokens, split.
  rewrite lower_app. cbn [lower]. rewrite lower_char_space by exact H.
  rewrite split_aux_app_space by exact H. apply filter_app.
Qed.

Lemma split_aux_no_space : forall s cur w,
  In w (split_aux s cur) ->
  (forall c, In c cur -> is_space c = false) ->
  forall c, In c (list_ascii_of_string w) -> is_space c = false.
Proof.
  induction s as [|c s IH]; intros cur w Hin Hcur; simpl in Hin.
  - destruct cur as [|c0 cur']; [contradiction|].
    destruct Hin as [<-|[]]. intros c Hc. rewrite list_ascii_of_string_of_list in Hc.
    apply Hcur, in_rev, Hc.
  - destruct (is_space c) eqn:Ec.
    + destruct cur as [|c0 cur'].
      * apply (IH [] w Hin). intros _ [].
      * destruct Hin as [<-|Hin].
        -- intros c1 Hc. rewrite list_ascii_of_string_of_list in Hc.
           apply Hcur, in_rev, Hc.
        -- apply (IH [] w Hin). intros _ [].
    + apply (IH (c :: cur) w Hin). intros c1 [<-|Hc1]; [exact Ec | now apply Hcur].
Qed.

Lemma split_aux_word : forall s cur,
  (forall c, In c (list_ascii_of_string s) -> is_space c = false) ->
  (cur <> [] \/ s <> "") ->
  split_aux s cur = [string_of_list_ascii (rev cur ++ list_ascii_of_string s)].
Proof.
  induction s as [|c s IH]; intros cur Hs Hne; simpl.
  - destruct cur as [|c0 cur']; [destruct Hne as [H|H]; now destruct H|].
    now rewrite app_nil_r.
  - rewrite (Hs c) by (now left). rewrite IH.
    + simpl. now rewrite <- app_assoc.
    + intros c1 H1. apply Hs. now right.
    + left. discriminate.
Qed.

Lemma string_of_list_ascii_of_string : forall s,
  string_of_list_ascii (list_ascii_of_string s) = s.
Proof. induction s as [|c s IH]; simpl; congruence. Qed.

Lemma tokens_of_token : forall text w, In w (tokens text) -> tokens w = [w].
Proof.
  intros text w Hw. unfold tokens in Hw. apply filter_In in Hw as [Hs Hf].
  destruct (split_aux_words (lower text) [] w Hs) as [Hne Hc].
  assert (Hl : lower w = w).
  { apply lower_id. intros c Hin. destruct (Hc c Hin) as [H|[]]. now apply In_lower in H. }
  assert (Hsp := split_aux_no_space (lower text) [] w Hs (fun _ H => match H with end)).
  unfold tokens, split. rewrite Hl, split_aux_word by (auto).
  simpl. rewrite string_of_list_ascii_of_string. simpl. now rewrite Hf.
Qed.

Lemma tokens_join_gen : forall ws,
  (forall w, In w ws -> tokens w = [w]) -> tokens (join_space ws) = ws.
Proof.
  induction ws as [|w ws IH]; intros H; [reflexivity|].
  destruct ws as [|w' ws'].
  - apply H. now left.
  - change (join_space (w :: w' :: ws')) with
      (String.append w (String " " (join_space (w' :: ws')))).
    rewrite tokens_app_space_char by reflexivity.
    rewrite (H w) by (now left). rewrite IH; [reflexivity|].
    intros x Hx. apply H. now right.
Qed.

(** Re-tokenizing the tokens of a text, joined by spaces, gives the same
    tokens: the tokenizer is a normal form. *)
Theorem tokens_join_roundtrip : forall text,
  tokens (join_space (tokens text)) = tokens text.
Proof.
  intros text. apply tokens_join_gen. intros w Hw. exact (tokens_of_token text w Hw).
Qed.

(** ** What ingestion adds *)

Lemma dict_get_locs_in_file : forall text w,
  dict_get (locs_in_file text) w [] = positions (tokens text) w 0.
Proof. intros text w. unfold locs_in_file. now rewrite dict_get_enumerate_locs. Qed.

Lemma locs_in_file_nil : forall text, tokens text = [] -> locs_in_file text = [].
Proof. intros text H. unfold locs_in_file. now rewrite H. Qed.

Lemma locs_in_file_cons : forall text, tokens text <> [] -> locs_in_file text <> [].
Proof.
  intros text H E. destruct (tokens text) as [|x xs] eqn:Et; [contradiction|].
  assert (Hin : In x (map fst (locs_in_file text))).
  { unfold locs_in_file. apply enumerate_locs_keys. right. rewrite Et. now left. }
  rewrite E in Hin. destruct Hin.
Qed.

Lemma add_doc_returns_iff : forall idx f t,
  (exists idx', add_doc idx f t = Returned idx') <-> tokens t <> [].
Proof.
  intros idx f t. unfold add_doc. split.
  - intros [idx' H] Ht. rewrite (locs_in_file_nil t Ht) in H. discriminate.
  - intros Ht. destruct (locs_in_file t) as [|p lf] eqn:E;
      [exfalso; now apply (locs_in_file_cons t)|].
    simpl. eexists. reflexivity.
Qed.

Lemma add_doc_returned : forall idx f t idx',
  add_doc idx f t = Returned idx' ->
  (exists m, documents idx' =
     documents idx ++ [mkDocument (length (documents idx)) (replace_txt f) f m]) /\
  forall w, dict_get (terms idx') w [] =
    dict_get (terms idx) w [] ++
    match positions (tokens t) w 0 with
    | [] => []
    | offs => [mkLoc (length (documents idx)) offs]
    end.
Proof.
  intros idx f t idx' H. unfold add_doc in H.
  destruct (py_max (map (fun p => length (snd p)) (locs_in_file t))) as [m|];
    [|discriminate].
  injection H as <-. cbn [documents terms]. split; [now exists m|].
  intros w. rewrite dict_get_fold_terms_append. f_equal.
  assert (Hnd : NoDup (map fst (locs_in_file t)))
    by (apply enumerate_locs_nodup; constructor).
  rewrite <- dict_get_locs_in_file.
  destruct (filter_key_nodup (locs_in_file t) w Hnd) as [E|[offs [E Hin]]]; rewrite E.
  - destruct (dict_get (locs_in_file t) w []) as [|o os] eqn:Eg; [reflexivity|].
    exfalso. assert (Hin : In (w, dict_get (locs_in_file t) w []) (locs_in_file t))
      by (apply dict_get_found; rewrite Eg; discriminate).
    assert (Hf : In (w, dict_get (locs_in_file t) w [])
                    (filter (fun p => String.eqb (fst p) w) (locs_in_file t)))
      by (apply filter_In; split; [exact Hin | apply String.eqb_refl]).
    rewrite E in Hf. destruct Hf.
  - rewrite (dict_get_nodup_In _ _ _ _ Hnd Hin).
    pose proof (enumerate_locs_nonempty (tokens t) 0 [] (Forall_nil _)) as HF.
    rewrite Forall_forall in HF. specialize (HF _ Hin). simpl in HF.
    destruct offs; [contradiction | reflexivity].
Qed.

(** When [add_doc] returns, it has appended one document (id = its
    position, name = [filename.replace(".txt", "")]) and extended each
    term's postings by at most one posting at the end: the new document
    with the positions of the term among the document's tokens. *)
Theorem add_doc_postings : forall idx f t idx',
  add_doc idx f t = Returned idx' ->
  (exists m, documents idx' =
     documents idx ++ [mkDocument (length (documents idx)) (replace_txt f) f m]) /\
  forall w, dict_get (terms idx') w [] =
    dict_get (terms idx) w [] ++
    match positions (tokens t) w 0 with
    | [] => []
    | offs => [mkLoc (length (documents idx)) offs]
    end.
Proof. exact add_doc_returned. Qed.

Lemma add_doc_postings_witness :
  add_doc empty_index "doc0.txt" "the cat sat on the cat" = Returned one_doc /\
  (exists m, documents one_doc =
     documents empty_index ++
     [mkDocument (length (documents empty_index)) (replace_txt "doc0.txt") "doc0.txt" m]) /\
  forall w, dict_get (terms one_doc) w [] =
    dict_get (terms empty_index) w [] ++
    match positions (tokens "the cat sat on the cat") w 0 with
    | [] => []
    | offs => [mkLoc (length (documents empty_index)) offs]
    end.
Proof.
  assert (H : add_doc empty_index "doc0.txt" "the cat sat on the cat" = Returned one_doc)
    by (vm_compute; reflexivity).
  split; [exact H | exact (add_doc_postings _ _ _ _ H)].
Defined.

Lemma add_docs_app : forall l1 l2 idx,
  add_docs idx (l1 ++ l2) =
  match add_docs idx l1 with
  | Returned i => add_docs i l2
  | Raised e i => Raised e i
  end.
Proof.
  induction l1 as [|[f t] l1 IH]; intros l2 idx; simpl; [reflexivity|].
  destruct (add_doc idx f t); [apply IH | reflexivity].
Qed.

(** [Index.__init__] stops at the first file without tokens: the files
    before it are ingested, that file's document is appended with
    [max_tf = 0], and the [ValueError] propagates, so the files after it
    are never read. *)
Theorem add_docs_first_empty : forall idx files1 idx1 f t rest,
  add_docs idx files1 = Returned idx1 -> tokens t = [] ->
  add_docs idx (files1 ++ (f, t) :: rest) =
    Raised ValueError
      (mkIndex (documents idx1 ++ [new_document (length (documents idx1)) f]) (terms idx1)).
Proof.
  intros idx files1 idx1 f t rest H1 Ht. rewrite add_docs_app, H1. simpl.
  unfold add_doc. rewrite (locs_in_file_nil t Ht). reflexivity.
Qed.

Lemma add_docs_first_empty_witness :
  add_docs empty_index [("cat.txt", "cat")] = Returned single_cat /\ tokens "" = [] /\
  add_docs empty_index ([("cat.txt", "cat")] ++ ("empty.txt", "") :: [("dog.txt", "dog")]) =
    Raised ValueError
      (mkIndex (documents single_cat ++
                [new_document (length (documents single_cat)) "empty.txt"])
               (terms single_cat)).
Proof.
  assert (H1 : add_docs empty_index [("cat.txt", "cat")] = Returned single_cat)
    by (vm_compute; reflexivity).
  assert (Ht : tokens "" = []) by reflexivity.
  split; [exact H1 | split; [exact Ht | exact (add_docs_first_empty _ _ _ _ _ _ H1 Ht)]].
Defined.

(** [Index.__init__] returns without error exactly when every file has at
    least one token. *)
Theorem add_docs_returns_iff : forall idx files,
  (exists idx', add_docs idx files = Returned idx') <->
  Forall (fun p => tokens (snd p) <> []) files.
Proof.
  intros idx files. revert idx.
  induction files as [|[f t] files IH]; intros idx; simpl.
  - split; [constructor | intros _; now exists idx].
  - split.
    + intros [idx' H]. destruct (add_doc idx f t) as [i|e i] eqn:E; [|discriminate].
      constructor.
      * simpl. apply (add_doc_returns_iff idx f t). now exists i.
      * apply (IH i). now exists idx'.
    + intros H. inversion H as [|? ? Ht Hfs]; subst.
      destruct (proj2 (add_doc_returns_iff idx f t) Ht) as [i Ei]. rewrite Ei.
      now apply IH.
Qed.

Lemma add_docs_returned_docs : forall files idx idx',
  add_docs idx files = Returned idx' ->
  map doc_filename (documents idx') = map doc_filename (documents idx) ++ map fst files /\
  map doc_name (documents idx') =
    map doc_name (documents idx) ++ map (fun p => replace_txt (fst p)) files.
Proof.
  induction files as [|[f t] files IH]; intros idx idx' H; simpl in H.
  - injection H as <-. now rewrite !app_nil_r.
  - destruct (add_doc idx f t) as [i|e i] eqn:E; [|discriminate].
    destruct (IH i idx' H) as [H1 H2].
    destruct (add_doc_returned idx f t i E) as [[m Hd] _].
    rewrite Hd, !map_app in H1, H2. simpl in H1, H2.
    rewrite <- !app_assoc in H1, H2. split; [exact H1 | exact H2].
Qed.

(** When [Index.__init__] returns, the documents are those it had before
    followed by one per file, in the order of the files, each with the
    file's name and the display name [filename.replace(".txt", "")]. *)
Theorem add_docs_documents : forall files idx idx',
  add_docs idx files = Returned idx' ->
  map doc_filename (documents idx') = map doc_filename (documents idx) ++ map fst files /\
  map doc_name (documents idx') =
    map doc_name (documents idx) ++ map (fun p => replace_txt (fst p)) files.
Proof. exact add_docs_returned_docs. Qed.

Lemma add_docs_documents_witness :
  add_docs empty_index scenario_files = Returned scenario /\
  map doc_filename (documents scenario) =
    map doc_filename (documents empty_index) ++ map fst scenario_files /\
  map doc_name (documents scenario) =
    map doc_name (documents empty_index) ++ map (fun p => replace_txt (fst p)) scenario_files.
Proof.
  assert (H : add_docs empty_index scenario_files = Returned scenario)
    by (vm_compute; reflexivity).
  split; [exact H | exact (add_docs_documents _ _ _ H)].
Defined.

Lemma add_docs_postings_gen : forall files idx idx',
  add_docs idx files = Returned idx' ->
  forall w loc, In loc (dict_get (terms idx') w []) <->
    In loc (dict_get (terms idx) w []) \/
    exists k f t, nth_error files k = Some (f, t) /\
      loc_doc loc = (length (documents idx) + k)%nat /\
      offsets loc = positions (tokens t) w 0 /\ offsets loc <> [].
Proof.
  induction files as [|[f t] files IH]; intros idx idx' H w loc; simpl in H.
  - injection H as <-. split; [now left|].
    intros [Hin|[k [f [t [Hk _]]]]]; [exact Hin | now destruct k].
  - destruct (add_doc idx f t) as [i|e i] eqn:E; [|discriminate].
    destruct (add_doc_returned idx f t i E) as [[m Hd] Ht].
    rewrite (IH i idx' H w loc), Ht, in_app_iff, Hd, length_app. simpl.
    split.
    + intros [[Hin|Hnew]|[k [f' [t' [Hk [Hdoc [Hoff Hne]]]]]]].
      * now left.
      * right. exists 0%nat, f, t. simpl.
        destruct (positions (tokens t) w 0) as [|o os] eqn:Ep; [destruct Hnew|].
        destruct Hnew as [<-|[]]. simpl. repeat split; [lia | discriminate].
      * right. exists (S k), f', t'. simpl. repeat split; auto. lia.
    + intros [Hin|[k [f' [t' [Hk [Hdoc [Hoff Hne]]]]]]]; [now left; left|].
      destruct k as [|k]; simpl in Hk.
      * injection Hk as <- <-. left; right.
        destruct loc as [d offs]; simpl in *. rewrite Nat.add_0_r in Hdoc. subst d.
        rewrite <- Hoff. destruct offs; [contradiction | now left].
      * right. exists k, f', t'. repeat split; auto. lia.
Qed.

(** The index that [Index.__init__] builds is an inverted index of the
    files: a term's postings hold [(d, offsets)] exactly when the term
    occurs in the [d]-th file, [offsets] being the positions of the term
    among that file's tokens. *)
Theorem add_docs_postings : forall files idx,
  add_docs empty_index files = Returned idx ->
  forall w loc, In loc (dict_get (terms idx) w []) <->
    exists f t, nth_error files (loc_doc loc) = Some (f, t) /\
      offsets loc = positions (tokens t) w 0 /\ offsets loc <> [].
Proof.
  intros files idx H w loc. rewrite (add_docs_postings_gen files empty_index idx H w loc).
  simpl. split.
  - intros [[]|[k [f [t [Hk [Hd Ho]]]]]]. exists f, t. rewrite Hd. auto.
  - intros [f [t Hft]]. right. exists (loc_doc loc), f, t. tauto.
Qed.

Lemma add_docs_postings_witness :
  add_docs empty_index scenario_files = Returned scenario /\
  forall w loc, In loc (dict_get (terms scenario) w []) <->
    exists f t, nth_error scenario_files (loc_doc loc) = Some (f, t) /\
      offsets loc = positions (tokens t) w 0 /\ offsets loc <> [].
Proof.
  assert (H : add_docs empty_index scenario_files = Returned scenario)
    by (vm_compute; reflexivity).
  split; [exact H | exact (add_docs_postings _ _ H)].
Defined.

(** ** When [save] returns *)

(** On an index that keeps the invariant (every stored term has a
    posting), [save] returns without error exactly when the index has no
    terms; then [index.dat] and [directory.txt] are written empty. *)
Theorem save_returns_iff_no_terms : forall idx,
  index_ok idx ->
  ((exists fs, save idx = Returned fs) <-> terms idx = []) /\
  (terms idx = [] ->
   save idx = Returned (mkFiles (Some (concat_str (map format_doc (documents idx))))
                                (Some []) (Some ""))).
Proof.
  intros idx [_ [Hne _]]. unfold save.
  destruct (terms idx) as [|[w locs] ts] eqn:E.
  - simpl. split; [split; [reflexivity | intros _; eexists; reflexivity] | reflexivity].
  - inversion Hne as [|? ? Hl _]; subst. simpl in Hl.
    destruct locs as [|l ls]; [contradiction|]. simpl.
    split; [split; [intros [fs Hfs]; discriminate | discriminate] | discriminate].
Qed.

Lemma save_returns_iff_no_terms_witness :
  index_ok (index_of (add_docs empty_index [("empty.txt", "")])) /\
  ((exists fs, save (index_of (add_docs empty_index [("empty.txt", "")])) = Returned fs) <->
   terms (index_of (add_docs empty_index [("empty.txt", "")])) = []) /\
  (terms (index_of (add_docs empty_index [("empty.txt", "")])) = [] ->
   save (index_of (add_docs empty_index [("empty.txt", "")])) =
   Returned (mkFiles (Some (concat_str (map format_doc
                      (documents (index_of (add_docs empty_index [("empty.txt", "")]))))))
                     (Some []) (Some ""))).
Proof.
  assert (H : index_ok (index_of (add_docs empty_index [("empty.txt", "")])))
    by apply built_index_ok.
  split; [exact H | exact (save_returns_iff_no_terms _ H)].
Defined.

(** On an index that keeps the invariant, every result of [search] is a
    document of the index, reached through a posting of a query token. *)
Theorem search_results_valid : forall q limit idx r,
  index_ok idx -> In r (fst (search q limit idx)) ->
  (res_doc r < length (documents idx))%nat /\
  exists w, In w (tokens q) /\
    exists loc, In loc (dict_get (terms idx) w []) /\ loc_doc loc = res_doc r.
Proof.
  intros q limit idx r [_ [_ Hpost]] Hr. apply In_search in Hr.
  assert (Hk : In (res_doc r) (map fst (fst (file_scores q idx))))
    by (apply in_map_iff; exists (res_doc r, score r); auto).
  unfold file_scores in Hk. rewrite foldM_score_word_keys in Hk.
  destruct Hk as [[]|[w [Hw [loc [Hloc Hd]]]]].
  split; [|exists w; split; [exact Hw | exists loc; auto]].
  destruct (Hpost w) as [_ Hf]. rewrite Forall_forall in Hf.
  rewrite <- Hd. apply (Hf loc Hloc).
Qed.

Lemma search_results_valid_witness :
  index_ok single_cat /\
  In (mkResult 0 (tf_value 1 1 * idf_value 1 1)%R) (fst (search "cat" 10 single_cat)) /\
  (res_doc (mkResult 0 (tf_value 1 1 * idf_value 1 1)%R) < length (documents single_cat))%nat /\
  exists w, In w (tokens "cat") /\
    exists loc, In loc (dict_get (terms single_cat) w []) /\
      loc_doc loc = res_doc (mkResult 0 (tf_value 1 1 * idf_value 1 1)%R).
Proof.
  assert (Hok : index_ok single_cat) by apply built_index_ok.
  assert (H : In (mkResult 0 (tf_value 1 1 * idf_value 1 1)%R)
                 (fst (search "cat" 10 single_cat))).
  { rewrite search_run, file_scores_single_cat. simpl. left. f_equal. ring. }
  split; [exact Hok | split; [exact H | exact (search_results_valid _ _ _ _ Hok H)]].
Defined.
